(** * shadPS4 [core/virtual_memory.cpp]: the virtual-memory control layer

    A shallow embedding of namespace [VirtualMemory]: the protection-mode
    codec ([convertMemoryMode], both overloads), [AlignUp], and the five
    stateful entry points [memory_alloc], [memory_alloc_aligned],
    [memory_protect], [memory_flush] and [memory_patch].

    The source is one translation unit compiled in two ways, selected by
    [#ifdef _WIN64]; the embedding keeps both branches and takes the build
    target as an explicit [Platform] argument.  Unsigned 64-bit integers are
    [Z] with the wrap-around written out. *)

From Stdlib Require Import ZArith Lia List String.
From coqutil Require Import Byte Word.LittleEndianList.
From stdpp Require Import base option gmap.

Local Open Scope Z_scope.

(** ** Build targets *)

(** [_WIN64] selects the Windows branches; every other target takes the
    [#else] (POSIX) branches.  [__APPLE__ && __aarch64__] is a POSIX target
    that additionally toggles the per-thread JIT write protection inside
    [memory_patch]. *)
Inductive Platform : Set :=
| Win64
| Posix
| PosixAppleAarch64.

Definition is_win64 (p : Platform) : bool :=
  match p with Win64 => true | _ => false end.

Definition is_apple_aarch64 (p : Platform) : bool :=
  match p with PosixAppleAarch64 => true | _ => false end.

(** ** Machine integers *)

Definition u64_modulus : Z := 2 ^ 64.
Definition u64_max : Z := u64_modulus - 1.

Definition wrap64 (z : Z) : Z := z mod u64_modulus.
Definition add64 (a b : Z) : Z := wrap64 (a + b).
Definition sub64 (a b : Z) : Z := wrap64 (a - b).
(** [~x] on a [u64]. *)
Definition not64 (a : Z) : Z := wrap64 (Z.lnot a).
Definition and64 (a b : Z) : Z := Z.land a b.

Definition is_u64 (z : Z) : Prop := 0 <= z < u64_modulus.

(** ** MemoryMode *)

(** Modelled from the spec: the enumeration [MemoryMode] is declared in
    [core/virtual_memory.h]; its eight enumerators are listed as the
    abstract protection vocabulary, [NoAccess] first (so a value-initialised
    [MemoryMode{}] is [NoAccess]). *)
Inductive MemoryMode : Set :=
| NoAccess
| Read
| Write
| ReadWrite
| Execute
| ExecuteRead
| ExecuteWrite
| ExecuteReadWrite.

(** [MemoryMode old_mode{};] *)
Definition MemoryMode_value_init : MemoryMode := NoAccess.

(** Modelled from the spec: the helper [containsExecuteMode] is declared in
    [core/virtual_memory.h]; it tells whether a mode includes execute
    permission. *)
Definition containsExecuteMode (mode : MemoryMode) : bool :=
  match mode with
  | Execute | ExecuteRead | ExecuteWrite | ExecuteReadWrite => true
  | _ => false
  end.

(** The classes of modes the codec does not tell apart, each named by the
    member that decoding produces. *)
Definition mode_class (m : MemoryMode) : MemoryMode :=
  match m with
  | Write => ReadWrite
  | ExecuteWrite => ExecuteReadWrite
  | other => other
  end.

(** [b] is in the class of [a]: [Write] and [ReadWrite] are interchangeable,
    [ExecuteWrite] and [ExecuteReadWrite] are interchangeable, every other
    mode is alone in its class. *)
Definition mode_equiv (a b : MemoryMode) : Prop :=
  match a with
  | Write | ReadWrite => b = Write \/ b = ReadWrite
  | ExecuteWrite | ExecuteReadWrite => b = ExecuteWrite \/ b = ExecuteReadWrite
  | other => b = other
  end.

(** ** Native protection constants *)

(** [<sys/mman.h>] *)
Definition PROT_NONE : Z := 0.
Definition PROT_READ : Z := 1.
Definition PROT_WRITE : Z := 2.
Definition PROT_EXEC : Z := 4.

(** On Windows the [PAGE_*] names are the [<windows.h>] constants; elsewhere
    they are the enumerators of [PosixPageProtection]. *)
Definition PAGE_NOACCESS (p : Platform) : Z :=
  if is_win64 p then 0x01 else 0.
Definition PAGE_READONLY (p : Platform) : Z :=
  if is_win64 p then 0x02 else PROT_READ.
Definition PAGE_READWRITE (p : Platform) : Z :=
  if is_win64 p then 0x04 else Z.lor PROT_READ PROT_WRITE.
Definition PAGE_EXECUTE (p : Platform) : Z :=
  if is_win64 p then 0x10 else PROT_EXEC.
Definition PAGE_EXECUTE_READ (p : Platform) : Z :=
  if is_win64 p then 0x20 else Z.lor PROT_EXEC PROT_READ.
Definition PAGE_EXECUTE_READWRITE (p : Platform) : Z :=
  if is_win64 p then 0x40 else Z.lor (Z.lor PROT_EXEC PROT_READ) PROT_WRITE.

(** ** Protection-mode codec *)

(** [static u32 convertMemoryMode(MemoryMode mode)].  The [default:] label
    returns [PAGE_NOACCESS] as the [NoAccess] case does. *)
Definition convertMemoryMode (p : Platform) (mode : MemoryMode) : Z :=
  match mode with
  | Read => PAGE_READONLY p
  | Write | ReadWrite => PAGE_READWRITE p
  | Execute => PAGE_EXECUTE p
  | ExecuteRead => PAGE_EXECUTE_READ p
  | ExecuteWrite | ExecuteReadWrite => PAGE_EXECUTE_READWRITE p
  | NoAccess => PAGE_NOACCESS p
  end.

(** [static MemoryMode convertMemoryMode(u32 mode)]: the [switch] compares
    against the case labels; anything else falls to [default:]. *)
Definition convertMemoryMode_u32 (p : Platform) (mode : Z) : MemoryMode :=
  if mode =? PAGE_NOACCESS p then NoAccess
  else if mode =? PAGE_READONLY p then Read
  else if mode =? PAGE_READWRITE p then ReadWrite
  else if mode =? PAGE_EXECUTE p then Execute
  else if mode =? PAGE_EXECUTE_READ p then ExecuteRead
  else if mode =? PAGE_EXECUTE_READWRITE p then ExecuteReadWrite
  else NoAccess.

(** ** AlignUp *)

(** [static u64 AlignUp(u64 pos, u64 align)] *)
Definition AlignUp (pos align : Z) : Z :=
  if negb (align =? 0)
  then and64 (add64 pos (sub64 align 1)) (not64 (sub64 align 1))
  else pos.

(** [m] is the least multiple of [align] that is at least [pos]. *)
Definition least_multiple_ge (align pos m : Z) : Prop :=
  (exists q, m = q * align) /\ pos <= m /\
  forall m', (exists q', m' = q' * align) -> pos <= m' -> m <= m'.

(** ** Host state *)

(** A mapped range and its native protection value.  The layer keeps no
    region table of its own; this is the operating system's. *)
Record Region : Set := mkRegion {
  r_base : Z;
  r_size : Z;
  r_prot : Z
}.

(** [MEM_ADDRESS_REQUIREMENTS] *)
Record MEM_ADDRESS_REQUIREMENTS : Set := mkReq {
  LowestStartingAddress : Z;
  HighestEndingAddress : Z;
  Alignment : Z
}.

(** The native calls the layer issues, with the arguments it passes.  The
    process handle [GetCurrentProcess()] is left out. *)
Inductive NativeCall : Set :=
| VirtualAlloc (lpAddress dwSize flAllocationType flProtect : Z)
| VirtualAlloc2 (BaseAddress Size AllocationType PageProtection : Z)
                (req : MEM_ADDRESS_REQUIREMENTS)
| VirtualProtect (lpAddress dwSize flNewProtect : Z)
| FlushInstructionCache (lpBaseAddress dwSize : Z)
| mmap (addr length prot flags fd offset : Z)
| mprotect (addr len prot : Z)
| pthread_jit_write_protect_np (enabled : bool).

(** One [LOG_ERROR(Common_Memory, fmt, arg)] record; [strerror(errno)] is
    recorded by its [errno]. *)
Record LogEntry : Set := mkLog {
  log_format : string;
  log_arg : Z
}.

Record World : Type := mkWorld {
  regions : list Region;          (* newest first; a later entry overlays *)
  contents : gmap Z byte;         (* bytes written so far; others read 0 *)
  jit_write_protect : bool;       (* per-thread toggle, Apple aarch64 *)
  last_error : Z;                 (* GetLastError() / errno *)
  log : list LogEntry;            (* oldest first *)
  calls : list NativeCall         (* oldest first *)
}.

Definition with_regions (f : list Region -> list Region) (w : World) : World :=
  mkWorld (f (regions w)) (contents w) (jit_write_protect w) (last_error w)
          (log w) (calls w).
Definition with_contents (f : gmap Z byte -> gmap Z byte) (w : World) : World :=
  mkWorld (regions w) (f (contents w)) (jit_write_protect w) (last_error w)
          (log w) (calls w).
Definition with_jit (b : bool) (w : World) : World :=
  mkWorld (regions w) (contents w) b (last_error w) (log w) (calls w).
Definition with_last_error (e : Z) (w : World) : World :=
  mkWorld (regions w) (contents w) (jit_write_protect w) e (log w) (calls w).
Definition with_log (e : LogEntry) (w : World) : World :=
  mkWorld (regions w) (contents w) (jit_write_protect w) (last_error w)
          (log w ++ e :: nil) (calls w).
Definition with_call (c : NativeCall) (w : World) : World :=
  mkWorld (regions w) (contents w) (jit_write_protect w) (last_error w)
          (log w) (calls w ++ c :: nil).

Definition in_region (r : Region) (a : Z) : bool :=
  (r_base r <=? a) && (a <? r_base r + r_size r).

(** Native protection of the byte at [a], [None] when it is not mapped. *)
Fixpoint prot_at (rs : list Region) (a : Z) : option Z :=
  match rs with
  | nil => None
  | r :: rest => if in_region r a then Some (r_prot r) else prot_at rest a
  end.

(** What memory holds at [a], whatever the protection of its page: fresh
    anonymous pages hold zero.  This is an observation for stating what a
    call changed, not an access by the program; the program's own loads and
    stores go through [deref_read] and [deref_write], which fault on a page
    that does not permit them. *)
Definition byte_at (w : World) (a : Z) : option byte :=
  match prot_at (regions w) a with
  | Some _ => Some (default Byte.x00 (contents w !! a))
  | None => None
  end.

Fixpoint bytes_at (w : World) (a : Z) (n : nat) : option (list byte) :=
  match n with
  | O => Some nil
  | S k =>
      match byte_at w a, bytes_at w (a + 1) k with
      | Some b, Some bs => Some (b :: bs)
      | _, _ => None
      end
  end.

Fixpoint write_bytes (a : Z) (bs : list byte) (m : gmap Z byte) : gmap Z byte :=
  match bs with
  | nil => m
  | b :: rest => <[a := b]> (write_bytes (a + 1) rest m)
  end.

(** The [uint64_t] memory holds at [a], little-endian as on x86-64 and
    aarch64; like [byte_at], an observation. *)
Definition word_at (w : World) (a : Z) : option Z :=
  match bytes_at w a 8 with
  | Some bs => Some (le_combine bs)
  | None => None
  end.

(** Whether the byte at [a] is mapped under a protection that [ok]
    accepts. *)
Definition byte_allows (ok : Z -> bool) (rs : list Region) (a : Z) : bool :=
  match prot_at rs a with
  | Some prot => ok prot
  | None => false
  end.

(** Whether each of the [n] bytes from [a] is. *)
Fixpoint range_allows (ok : Z -> bool) (rs : list Region) (a : Z) (n : nat) : bool :=
  match n with
  | O => true
  | S k => byte_allows ok rs a && range_allows ok rs (a + 1) k
  end.

(** Protection is kept per page: the first byte of the page holding [a],
    and the end of the last page holding a byte below [b]. *)
Definition page_floor (page a : Z) : Z := a - a mod page.
Definition page_ceil (page b : Z) : Z := page_floor page (b + (page - 1)).

(** The host operating system: where it places an allocation (or that it
    declines), whether it refuses a protection change or a flush, and the
    error code it then reports. *)
Class HostOS : Type := mkHost {
  host_place : World -> NativeCall -> option Z;
  host_refuses : World -> NativeCall -> bool;
  host_error : World -> NativeCall -> Z;
  (* the size of a page, the unit of protection *)
  host_page_size : positive;
  (* whether the hardware lets a page that grants write or execute, but
     not read, be read all the same: x86-64 page tables cannot express
     write-only nor, without protection keys, execute-only *)
  host_lenient_read : bool
}.

(** A host that grants every request, placing a region at the requested
    address or lower bound, or at [0x10000000] when none is given. *)
Definition granting_host : HostOS :=
  mkHost
    (fun _ c =>
       match c with
       | VirtualAlloc a _ _ _ => Some (if a =? 0 then 0x10000000 else a)
       | VirtualAlloc2 _ _ _ _ req => Some (LowestStartingAddress req)
       | mmap a _ _ _ _ _ => Some (if a =? 0 then 0x10000000 else a)
       | _ => None
       end)
    (fun _ _ => false)
    (fun _ _ => 0)
    4096%positive
    false.

(** A host that declines everything with error code [8]. *)
Definition refusing_host : HostOS :=
  mkHost (fun _ _ => None) (fun _ _ => true) (fun _ _ => 8) 4096%positive false.

Definition empty_world : World :=
  mkWorld nil ∅ true 0 nil nil.

(** A world with one mapped page at [base] under protection [prot]. *)
Definition one_page (base prot : Z) : World :=
  with_regions (fun _ => mkRegion base 4096 prot :: nil) empty_world.

(** ** Computations over the host state *)

Inductive Halt : Set :=
| AssertionFailed      (* ASSERT(cond) with [cond] false *)
| AccessViolation.     (* a load or store the page does not permit *)

Inductive Outcome (A : Type) : Type :=
| Returned (a : A) (w : World)
| Halted (why : Halt) (w : World).
Arguments Returned {A} a w.
Arguments Halted {A} why w.

Definition M (A : Type) : Type := World -> Outcome A.

Definition ret {A} (a : A) : M A := fun w => Returned a w.

Definition bind {A B} (c : M A) (k : A -> M B) : M B :=
  fun w =>
    match c w with
    | Returned a w' => k a w'
    | Halted why w' => Halted why w'
    end.

Declare Scope vm_scope.
Delimit Scope vm_scope with vm.
Notation "x <- c ;; k" := (bind c (fun x => k))
  (at level 100, c at next level, right associativity) : vm_scope.
Notation "c ;;; k" := (bind c (fun _ => k))
  (at level 100, right associativity) : vm_scope.
Local Open Scope vm_scope.

Definition halt {A} (why : Halt) : M A := fun w => Halted why w.
Definition modify (f : World -> World) : M unit := fun w => Returned tt (f w).
Definition gets {A} (f : World -> A) : M A := fun w => Returned (f w) w.
Definition when (b : bool) (c : M unit) : M unit := if b then c else ret tt.

(** The host state an outcome ends in. *)
Definition outcome_world {A} (o : Outcome A) : World :=
  match o with
  | Returned _ w => w
  | Halted _ w => w
  end.

(** Modelled from the spec: the macro [ASSERT] is defined in
    [common/assert.h]; a failed assertion halts execution, it is not a
    recoverable error.  What the macro prints on its way out is not part of
    [log], which holds the [LOG_ERROR] records of this file. *)
Definition ASSERT (cond : bool) : M unit :=
  if cond then ret tt else halt AssertionFailed.

(** [LOG_ERROR(Common_Memory, fmt, arg)]: a diagnostic record, control
    flow goes on. *)
Definition LOG_ERROR (fmt : string) (arg : Z) : M unit :=
  modify (with_log (mkLog fmt arg)).

(** [static_cast<u32>(GetLastError())] *)
Definition GetLastError : M Z := gets (fun w => last_error w mod 2 ^ 32).
Definition errno : M Z := gets last_error.

(** Flag values of [<windows.h>] and [<sys/mman.h>]. *)
Definition MEM_COMMIT : Z := 0x1000.
Definition MEM_RESERVE : Z := 0x2000.
Definition MAP_PRIVATE : Z := 0x02.
Definition MAP_ANONYMOUS (p : Platform) : Z :=
  if is_apple_aarch64 p then 0x1000 else 0x20.
(** [MAP_FAILED] is [(void* )-1]. *)
Definition MAP_FAILED : Z := u64_max.

(** The value an allocator returns on failure: [NULL] from [VirtualAlloc]
    and [VirtualAlloc2], [MAP_FAILED] from [mmap]. *)
Definition alloc_failure (p : Platform) : Z :=
  if is_win64 p then 0 else MAP_FAILED.

(** The region table after a granted change of protection over
    [[a, a + size)]: the new protection covers every page that holds a byte
    of the range, as [mprotect] and [VirtualProtect] work on whole pages.
    An empty range changes nothing. *)
Definition reprotect (page a size prot : Z) (rs : list Region) : list Region :=
  if size <=? 0 then rs
  else mkRegion (page_floor page a)
                (page_ceil page (a + size) - page_floor page a) prot :: rs.

Section VirtualMemory.

(** The user address window of [core/virtual_memory.h]. *)
Variables USER_MIN USER_MAX : Z.

Context {os : HostOS}.

(** *** Access to mapped memory *)

(** Whether a page under native protection [prot] may be read.  The six
    protection values this file uses are decided as the platform documents
    them; reading a page that grants write or execute without read is left
    to the hardware.  A Windows value outside the six (copy-on-write, guard
    and cache modifiers), which this layer never sets, grants nothing
    here. *)
Definition can_read (p : Platform) (prot : Z) : bool :=
  if is_win64 p
  then (prot =? PAGE_READONLY p) || (prot =? PAGE_READWRITE p) ||
       (prot =? PAGE_EXECUTE_READ p) || (prot =? PAGE_EXECUTE_READWRITE p) ||
       (host_lenient_read && (prot =? PAGE_EXECUTE p))
  else negb (Z.land prot PROT_READ =? 0) ||
       (host_lenient_read &&
        (negb (Z.land prot PROT_WRITE =? 0) || negb (Z.land prot PROT_EXEC =? 0))).

(** Whether a page under native protection [prot] may be written. *)
Definition can_write (p : Platform) (prot : Z) : bool :=
  if is_win64 p
  then (prot =? PAGE_READWRITE p) || (prot =? PAGE_EXECUTE_READWRITE p)
  else negb (Z.land prot PROT_WRITE =? 0).

(** What [*ptr] evaluates to for [uint64_t* ptr = a]: the word held there
    when all eight bytes are mapped readable, nothing when the load
    faults. *)
Definition load_u64 (p : Platform) (w : World) (a : Z) : option Z :=
  if range_allows (can_read p) (regions w) a 8 then word_at w a else None.

(** Whether [*ptr = value] is permitted: all eight bytes are mapped
    writable. *)
Definition store_permitted (p : Platform) (w : World) (a : Z) : bool :=
  range_allows (can_write p) (regions w) a 8.

(** [*ptr] for [uint64_t* ptr] *)
Definition deref_read (p : Platform) (vaddr : Z) : M Z :=
  fun w =>
    match load_u64 p w vaddr with
    | Some v => Returned v w
    | None => Halted AccessViolation w
    end.

(** [*ptr = value] *)
Definition deref_write (p : Platform) (vaddr value : Z) : M unit :=
  fun w =>
    if store_permitted p w vaddr
    then Returned tt (with_contents (write_bytes vaddr (le_split 8 value)) w)
    else Halted AccessViolation w.

(** *** Native calls *)

(** What the allocator called as [c] returns in [w]. *)
Definition alloc_return (p : Platform) (w : World) (c : NativeCall) : Z :=
  match host_place w c with
  | Some ptr => ptr
  | None => alloc_failure p
  end.

(** An allocating native call: on success the range is mapped with the
    protection passed in the call; on failure the error code is set. *)
Definition native_alloc (p : Platform) (c : NativeCall) (size prot : Z) : M Z :=
  fun w =>
    let r := alloc_return p w c in
    let w1 := with_call c w in
    if r =? alloc_failure p
    then Returned r (with_last_error (host_error w c) w1)
    else Returned r (with_regions (cons (mkRegion r size prot)) w1).

Definition sys_VirtualAlloc (lpAddress dwSize flAllocationType flProtect : Z) : M Z :=
  native_alloc Win64 (VirtualAlloc lpAddress dwSize flAllocationType flProtect)
               dwSize flProtect.

Definition sys_VirtualAlloc2 (BaseAddress Size AllocationType PageProtection : Z)
    (req : MEM_ADDRESS_REQUIREMENTS) : M Z :=
  native_alloc Win64 (VirtualAlloc2 BaseAddress Size AllocationType PageProtection req)
               Size PageProtection.

Definition sys_mmap (p : Platform) (addr length prot flags fd offset : Z) : M Z :=
  native_alloc p (mmap addr length prot flags fd offset) length prot.

(** [VirtualProtect(addr, size, new, &old)]: returns the [BOOL] and the
    content of [old] after the call, which on success is the protection the
    range had. *)
Definition sys_VirtualProtect (lpAddress dwSize flNewProtect old : Z) : M (Z * Z) :=
  fun w =>
    let c := VirtualProtect lpAddress dwSize flNewProtect in
    let w1 := with_call c w in
    if host_refuses w c
    then Returned (0, old) (with_last_error (host_error w c) w1)
    else Returned (1, default old (prot_at (regions w) lpAddress))
                  (with_regions
                     (reprotect (Z.pos host_page_size) lpAddress dwSize flNewProtect)
                     w1).

Definition sys_mprotect (addr len prot : Z) : M Z :=
  fun w =>
    let c := mprotect addr len prot in
    let w1 := with_call c w in
    if host_refuses w c
    then Returned (-1) (with_last_error (host_error w c) w1)
    else Returned 0
           (with_regions (reprotect (Z.pos host_page_size) addr len prot) w1).

Definition sys_FlushInstructionCache (lpBaseAddress dwSize : Z) : M Z :=
  fun w =>
    let c := FlushInstructionCache lpBaseAddress dwSize in
    let w1 := with_call c w in
    if host_refuses w c
    then Returned 0 (with_last_error (host_error w c) w1)
    else Returned 1 w1.

Definition sys_pthread_jit_write_protect_np (enabled : bool) : M unit :=
  modify (fun w => with_jit enabled (with_call (pthread_jit_write_protect_np enabled) w)).

(** *** The entry points *)

(** [u64 memory_alloc(u64 address, u64 size, MemoryMode mode)] *)
Definition memory_alloc (p : Platform) (address size : Z) (mode : MemoryMode) : M Z :=
  if is_win64 p then
    ptr <- sys_VirtualAlloc address size (Z.lor MEM_COMMIT MEM_RESERVE)
                            (convertMemoryMode p mode) ;;
    when (ptr =? 0)
         (err <- GetLastError ;;
          LOG_ERROR "VirtualAlloc() failed: 0x{:X}" err) ;;;
    ret ptr
  else
    ptr <- sys_mmap p address size
                    (Z.lor (Z.lor PROT_EXEC PROT_READ) PROT_WRITE)
                    (Z.lor (MAP_ANONYMOUS p) MAP_PRIVATE) (-1) 0 ;;
    when (ptr =? MAP_FAILED)
         (e <- errno ;;
          LOG_ERROR "mmap() failed: {}" e) ;;;
    ret ptr.

(** [bool memory_protect(u64 address, u64 size, MemoryMode mode,
    MemoryMode* old_mode)].  [old_mode] is [None] for [nullptr] and
    [Some m] for a pointer to a cell holding [m]; the cell's content after
    the call is returned next to the result.  The POSIX branch fetches
    [Common::GetLastErrorMsg()] into a local it never uses; that has no
    effect here. *)
Definition memory_protect (p : Platform) (address size : Z) (mode : MemoryMode)
    (old_mode : option MemoryMode) : M (bool * option MemoryMode) :=
  if is_win64 p then
    let old_protect := 0 in
    r <- sys_VirtualProtect address size (convertMemoryMode p mode) old_protect ;;
    let '(ok, old_protect) := r in
    if ok =? 0 then
      err <- GetLastError ;;
      LOG_ERROR "VirtualProtect() failed: 0x{:X}" err ;;;
      ret (false, old_mode)
    else
      let old_mode :=
        match old_mode with
        | Some _ => Some (convertMemoryMode_u32 p old_protect)
        | None => None
        end in
      ret (true, old_mode)
  else
    r <- sys_mprotect address size (convertMemoryMode p mode) ;;
    when (negb (r =? 0)) (ASSERT false) ;;;
    ret (true, old_mode).

(** [bool memory_flush(u64 address, u64 size)] *)
Definition memory_flush (p : Platform) (address size : Z) : M bool :=
  if is_win64 p then
    r <- sys_FlushInstructionCache address size ;;
    if r =? 0 then
      err <- GetLastError ;;
      LOG_ERROR "FlushInstructionCache() failed: 0x{:X}" err ;;;
      ret false
    else ret true
  else ret true.

(** [bool memory_patch(u64 vaddr, u64 value)].  Both calls to
    [memory_protect] are commented out in the source, so [old_mode] keeps
    its initial value. *)
Definition memory_patch (p : Platform) (vaddr value : Z) : M bool :=
  let old_mode := MemoryMode_value_init in
  when (is_apple_aarch64 p) (sys_pthread_jit_write_protect_np false) ;;;
  cur <- deref_read p vaddr ;;
  let ret_ := negb (cur =? value) in
  deref_write p vaddr value ;;;
  when (containsExecuteMode old_mode)
       (_ <- memory_flush p vaddr 8 ;; ret tt) ;;;
  when (is_apple_aarch64 p) (sys_pthread_jit_write_protect_np true) ;;;
  ret ret_.

(** The native allocation call [memory_alloc_aligned] issues. *)
Definition alloc_aligned_call (p : Platform) (address size : Z) (mode : MemoryMode)
    (alignment : Z) : NativeCall :=
  if is_win64 p then
    let req := mkReq (if address =? 0 then USER_MIN else AlignUp address alignment)
                     USER_MAX alignment in
    VirtualAlloc2 0 size (Z.lor MEM_COMMIT MEM_RESERVE) (convertMemoryMode p mode) req
  else
    let hint_address := if address =? 0 then USER_MIN else AlignUp address alignment in
    mmap hint_address size (convertMemoryMode p mode)
         (Z.lor (MAP_ANONYMOUS p) MAP_PRIVATE) (-1) 0.

(** [u64 memory_alloc_aligned(u64 address, u64 size, MemoryMode mode,
    u64 alignment)] *)
Definition memory_alloc_aligned (p : Platform) (address size : Z) (mode : MemoryMode)
    (alignment : Z) : M Z :=
  if is_win64 p then
    let req := mkReq (if address =? 0 then USER_MIN else AlignUp address alignment)
                     USER_MAX alignment in
    ptr <- sys_VirtualAlloc2 0 size (Z.lor MEM_COMMIT MEM_RESERVE)
                             (convertMemoryMode p mode) req ;;
    when (ptr =? 0)
         (err <- GetLastError ;;
          LOG_ERROR "VirtualAlloc2() failed: 0x{:X}" err) ;;;
    ret ptr
  else
    let hint_address := if address =? 0 then USER_MIN else AlignUp address alignment in
    ptr <- sys_mmap p hint_address size (convertMemoryMode p mode)
                    (Z.lor (MAP_ANONYMOUS p) MAP_PRIVATE) (-1) 0 ;;
    ASSERT (negb (ptr =? MAP_FAILED)) ;;;
    ret ptr.

(** The lower search bound a native allocation call carries: the
    [LowestStartingAddress] of [VirtualAlloc2], the address hint of [mmap]. *)
Definition lower_bound (c : NativeCall) : option Z :=
  match c with
  | VirtualAlloc2 _ _ _ _ req => Some (LowestStartingAddress req)
  | mmap addr _ _ _ _ _ => Some addr
  | _ => None
  end.

(** The protection a native allocation call asks for. *)
Definition requested_protection (c : NativeCall) : option Z :=
  match c with
  | VirtualAlloc _ _ _ prot => Some prot
  | VirtualAlloc2 _ _ _ prot _ => Some prot
  | mmap _ _ prot _ _ _ => Some prot
  | _ => None
  end.

End VirtualMemory.

(** ** Vocabulary for the statements below *)

(** The host state in which [memory_patch] performs its store: on Apple
    aarch64 the thread's JIT write protection has been switched off. *)
Definition before_store (p : Platform) (w : World) : World :=
  if is_apple_aarch64 p
  then with_jit false (with_call (pthread_jit_write_protect_np false) w)
  else w.

(** The host state [memory_patch] leaves after its store: on Apple aarch64
    the thread's JIT write protection is switched on again. *)
Definition after_store (p : Platform) (w : World) : World :=
  if is_apple_aarch64 p
  then with_jit true (with_call (pthread_jit_write_protect_np true) w)
  else w.

(** A native call that changes the protection of a range. *)
Definition is_protection_change (c : NativeCall) : bool :=
  match c with
  | VirtualProtect _ _ _ | mprotect _ _ _ => true
  | _ => false
  end.

(** A native call that synchronises the instruction cache. *)
Definition is_flush (c : NativeCall) : bool :=
  match c with
  | FlushInstructionCache _ _ => true
  | _ => false
  end.

(** The native call [memory_protect] issues. *)
Definition protect_call (p : Platform) (address size : Z) (mode : MemoryMode)
    : NativeCall :=
  if is_win64 p
  then VirtualProtect address size (convertMemoryMode p mode)
  else mprotect address size (convertMemoryMode p mode).

(** The native call [memory_alloc] issues. *)
Definition alloc_call (p : Platform) (address size : Z) (mode : MemoryMode)
    : NativeCall :=
  if is_win64 p
  then VirtualAlloc address size (Z.lor MEM_COMMIT MEM_RESERVE)
                    (convertMemoryMode p mode)
  else mmap address size (Z.lor (Z.lor PROT_EXEC PROT_READ) PROT_WRITE)
            (Z.lor (MAP_ANONYMOUS p) MAP_PRIVATE) (-1) 0.

(** A user address window for the worked examples. *)
Definition sample_USER_MIN : Z := 0x1000000000.
Definition sample_USER_MAX : Z := 0xFBFFFFFFFF.

(** * Properties *)

(** ** The codec *)

Example encode_Write_posix : convertMemoryMode Posix Write = 3.
Proof. reflexivity. Qed.

Example decode_encode_Write_win64 :
  convertMemoryMode_u32 Win64 (convertMemoryMode Win64 Write) = ReadWrite.
Proof. reflexivity. Qed.

(** [PAGE_GUARD] is none of the six encodings. *)
Example decode_unknown_win64 : convertMemoryMode_u32 Win64 0x100 = NoAccess.
Proof. reflexivity. Qed.

(** C1: decoding the native encoding of any mode yields a mode of the same
    class -- [Write] comes back as [ReadWrite], [ExecuteWrite] as
    [ExecuteReadWrite], every other mode as itself -- on every platform. *)
Theorem convertMemoryMode_roundtrip (p : Platform) (m : MemoryMode) :
  mode_equiv m (convertMemoryMode_u32 p (convertMemoryMode p m)) /\
  convertMemoryMode_u32 p (convertMemoryMode p m) = mode_class m.
Proof.
  destruct p, m; split; cbn; auto.
Qed.

(** Decoding is not a faithful inverse outside the six encodings. *)
Lemma convertMemoryMode_u32_unrecognised (p : Platform) (n : Z) :
  (forall m, convertMemoryMode p m <> n) ->
  convertMemoryMode_u32 p n = NoAccess.
Proof.
  intros Hn. unfold convertMemoryMode_u32.
  pose proof (Hn Read) as H1. pose proof (Hn ReadWrite) as H2.
  pose proof (Hn Execute) as H3. pose proof (Hn ExecuteRead) as H4.
  pose proof (Hn ExecuteReadWrite) as H5. cbn in H1, H2, H3, H4, H5.
  repeat match goal with
         | |- context [?a =? ?b] => destruct (Z.eqb_spec a b); try congruence
         end.
Qed.

(** ** AlignUp *)

Example AlignUp_5_8 : AlignUp 5 8 = 8.
Proof. reflexivity. Qed.

Example AlignUp_aligned : AlignUp 0x2000 0x1000 = 0x2000.
Proof. reflexivity. Qed.

(** Near the top of the address space the sum wraps, and so does the
    result. *)
Example AlignUp_wraps : AlignUp (u64_max - 2) 8 = 0.
Proof. reflexivity. Qed.

Example AlignUp_zero_alignment : AlignUp 7 0 = 7.
Proof. reflexivity. Qed.

Lemma u64_modulus_pos : 0 < u64_modulus.
Proof. reflexivity. Qed.

Lemma wrap64_small (z : Z) : is_u64 z -> wrap64 z = z.
Proof. intros H. apply Z.mod_small. exact H. Qed.

Lemma wrap64_range (z : Z) : is_u64 (wrap64 z).
Proof. apply Z.mod_pos_bound, u64_modulus_pos. Qed.

(** Masking with the complement of [2^k - 1] clears the low [k] bits. *)
Lemma and64_not64_low_mask (x k : Z) :
  is_u64 x -> 0 <= k ->
  and64 x (not64 (2 ^ k - 1)) = 2 ^ k * (x / 2 ^ k).
Proof.
  intros Hx Hk. unfold and64, not64, wrap64, u64_modulus.
  rewrite <- Z.land_ones by lia.
  rewrite Z.land_assoc, (Z.land_comm x), <- Z.land_assoc.
  rewrite (Z.land_ones x 64) by lia.
  rewrite (Z.mod_small x) by exact Hx.
  rewrite Z.land_comm, <- Z.ldiff_land.
  replace (2 ^ k - 1) with (Z.ones k) by (rewrite Z.ones_equiv; lia).
  rewrite Z.ldiff_ones_r by lia.
  rewrite Z.shiftl_mul_pow2, Z.shiftr_div_pow2 by lia.
  lia.
Qed.

Lemma pow2_below_modulus (k : Z) : 0 <= k < 64 -> 0 < 2 ^ k < u64_modulus.
Proof.
  intros Hk. unfold u64_modulus. split.
  - apply Z.pow_pos_nonneg; lia.
  - apply Z.pow_lt_mono_r; lia.
Qed.

Lemma u64_modulus_split (k : Z) :
  0 <= k < 64 -> u64_modulus = 2 ^ k * 2 ^ (64 - k).
Proof.
  intros Hk. unfold u64_modulus.
  rewrite <- Z.pow_add_r by lia. f_equal. lia.
Qed.

(** Rounding down to a multiple of [2^k] commutes with wrapping. *)
Lemma round_down_wrap64 (y k : Z) :
  0 <= k < 64 ->
  2 ^ k * (wrap64 y / 2 ^ k) = wrap64 (2 ^ k * (y / 2 ^ k)).
Proof.
  intros Hk. unfold wrap64.
  pose proof (pow2_below_modulus k Hk) as [Ha _].
  assert (Hc : 0 < 2 ^ (64 - k)) by (apply Z.pow_pos_nonneg; lia).
  rewrite (u64_modulus_split k Hk).
  rewrite Z.rem_mul_r by lia.
  rewrite Z.mul_mod_distr_l by lia.
  f_equal.
  rewrite (Z.mul_comm (2 ^ k) (_ mod _)), Z.div_add by lia.
  rewrite Z.div_small by (apply Z.mod_pos_bound; lia).
  lia.
Qed.

Lemma round_up_least_multiple (a pos : Z) :
  0 < a -> least_multiple_ge a pos (a * ((pos + (a - 1)) / a)).
Proof.
  intros Ha. unfold least_multiple_ge.
  pose proof (Z.div_mod (pos + (a - 1)) a ltac:(lia)) as Hdm.
  pose proof (Z.mod_pos_bound (pos + (a - 1)) a Ha) as Hr.
  split; [exists ((pos + (a - 1)) / a); lia|].
  split; [lia|].
  intros m' [q' ->] Hle.
  assert (Hq : (pos + (a - 1)) / a < q' + 1).
  { apply Z.div_lt_upper_bound; [lia|]. nia. }
  nia.
Qed.

(** C9: for a power-of-two alignment [2^k] that fits a [u64], [AlignUp pos
    (2^k)] is the least multiple of the alignment that is at least [pos],
    reduced modulo [2^64]; and a zero alignment leaves [pos] unchanged. *)
Theorem AlignUp_least_multiple (pos k : Z) :
  is_u64 pos -> 0 <= k < 64 ->
  AlignUp pos 0 = pos /\
  exists m, least_multiple_ge (2 ^ k) pos m /\ AlignUp pos (2 ^ k) = wrap64 m.
Proof.
  intros Hpos Hk. split; [reflexivity|].
  pose proof (pow2_below_modulus k Hk) as [Ha Hlt].
  exists (2 ^ k * ((pos + (2 ^ k - 1)) / 2 ^ k)). split.
  - apply round_up_least_multiple, Ha.
  - unfold AlignUp.
    destruct (Z.eqb_spec (2 ^ k) 0) as [E|_]; [lia|]. cbn [negb].
    unfold sub64. rewrite (wrap64_small (2 ^ k - 1)) by (unfold is_u64; lia).
    unfold add64.
    rewrite and64_not64_low_mask by (auto using wrap64_range; lia).
    apply round_down_wrap64, Hk.
Qed.

(** ** Reading and writing mapped bytes *)

Lemma byte_at_with_contents (f : gmap Z byte -> gmap Z byte) (w : World) (a : Z) :
  byte_at (with_contents f w) a =
  match prot_at (regions w) a with
  | Some _ => Some (default Byte.x00 (f (contents w) !! a))
  | None => None
  end.
Proof. reflexivity. Qed.

Lemma byte_at_same_memory (w w' : World) (a : Z) :
  regions w' = regions w -> contents w' = contents w ->
  byte_at w' a = byte_at w a.
Proof. intros Hr Hc. unfold byte_at. rewrite Hr, Hc. reflexivity. Qed.

Lemma bytes_at_same_memory (w w' : World) (n : nat) :
  regions w' = regions w -> contents w' = contents w ->
  forall a, bytes_at w' a n = bytes_at w a n.
Proof.
  intros Hr Hc. induction n as [|n IH]; intros a; cbn [bytes_at].
  - reflexivity.
  - rewrite IH, (byte_at_same_memory w w' a Hr Hc). reflexivity.
Qed.

Lemma write_bytes_lookup_outside (bs : list byte) :
  forall (a : Z) (m : gmap Z byte) (x : Z),
    x < a \/ a + Z.of_nat (length bs) <= x ->
    write_bytes a bs m !! x = m !! x.
Proof.
  induction bs as [|b bs IH]; intros a m x Hx; cbn [write_bytes length] in *.
  - reflexivity.
  - rewrite lookup_insert_ne by lia. apply IH. lia.
Qed.

Lemma write_bytes_lookup_inside (bs : list byte) :
  forall (a : Z) (m : gmap Z byte) (i : nat) (b : byte),
    bs !! i = Some b ->
    write_bytes a bs m !! (a + Z.of_nat i) = Some b.
Proof.
  induction bs as [|b0 bs IH]; intros a m i b Hi; [discriminate|].
  destruct i as [|i]; cbn [write_bytes].
  - cbn in Hi. injection Hi as ->.
    rewrite Z.add_0_r. apply lookup_insert_eq.
  - cbn in Hi. rewrite lookup_insert_ne by lia.
    replace (a + Z.of_nat (S i)) with (a + 1 + Z.of_nat i) by lia.
    apply IH, Hi.
Qed.

Lemma bytes_at_elim (n : nat) :
  forall (w : World) (a : Z) (bs : list byte),
    bytes_at w a n = Some bs ->
    length bs = n /\
    forall (i : nat) (b : byte),
      bs !! i = Some b -> byte_at w (a + Z.of_nat i) = Some b.
Proof.
  induction n as [|n IH]; intros w a bs H; cbn [bytes_at] in H.
  - injection H as <-. split; [reflexivity|]. intros i b Hi. discriminate.
  - destruct (byte_at w a) as [b0|] eqn:E0; [|discriminate].
    destruct (bytes_at w (a + 1) n) as [bs'|] eqn:E1; [|discriminate].
    injection H as <-. destruct (IH _ _ _ E1) as [Hlen Hget].
    split; [cbn; congruence|].
    intros [|i] b Hi; cbn in Hi.
    + injection Hi as <-. rewrite Z.add_0_r. exact E0.
    + replace (a + Z.of_nat (S i)) with (a + 1 + Z.of_nat i) by lia.
      apply Hget, Hi.
Qed.

Lemma bytes_at_intro (n : nat) :
  forall (w : World) (a : Z) (bs : list byte),
    length bs = n ->
    (forall (i : nat) (b : byte),
        bs !! i = Some b -> byte_at w (a + Z.of_nat i) = Some b) ->
    bytes_at w a n = Some bs.
Proof.
  induction n as [|n IH]; intros w a bs Hlen Hget.
  - destruct bs; [reflexivity|discriminate].
  - destruct bs as [|b bs]; [discriminate|]. cbn [bytes_at].
    pose proof (Hget O b eq_refl) as H0. rewrite Z.add_0_r in H0. rewrite H0.
    rewrite (IH w (a + 1) bs).
    + reflexivity.
    + cbn in Hlen. congruence.
    + intros i b' Hi.
      replace (a + 1 + Z.of_nat i) with (a + Z.of_nat (S i)) by lia.
      apply Hget. exact Hi.
Qed.

(** Bytes stored over a mapped range are the bytes read back from it. *)
Lemma bytes_at_after_write (w : World) (a : Z) (n : nat) (bs0 bs : list byte) :
  bytes_at w a n = Some bs0 -> length bs = n ->
  bytes_at (with_contents (write_bytes a bs) w) a n = Some bs.
Proof.
  intros Hread Hlen. destruct (bytes_at_elim _ _ _ _ Hread) as [Hlen0 Hget0].
  apply bytes_at_intro; [exact Hlen|].
  intros i b Hi. rewrite byte_at_with_contents.
  assert (Hlt : (i < length bs0)%nat).
  { rewrite Hlen0, <- Hlen. apply lookup_lt_is_Some. eauto. }
  destruct (lookup_lt_is_Some_2 bs0 i Hlt) as [b0 Hb0].
  pose proof (Hget0 i b0 Hb0) as Hmapped. unfold byte_at in Hmapped.
  destruct (prot_at (regions w) (a + Z.of_nat i)); [|discriminate].
  rewrite (write_bytes_lookup_inside bs a (contents w) i b Hi). reflexivity.
Qed.

(** A store leaves every byte outside its range as it was. *)
Lemma byte_at_write_outside (w : World) (a : Z) (bs : list byte) (x : Z) :
  x < a \/ a + Z.of_nat (length bs) <= x ->
  byte_at (with_contents (write_bytes a bs) w) x = byte_at w x.
Proof.
  intros Hx. rewrite byte_at_with_contents. unfold byte_at.
  rewrite write_bytes_lookup_outside by exact Hx. reflexivity.
Qed.

(** Storing back the bytes just read changes no byte. *)
Lemma byte_at_write_back (w : World) (a : Z) (n : nat) (bs : list byte) :
  bytes_at w a n = Some bs ->
  forall x, byte_at (with_contents (write_bytes a bs) w) x = byte_at w x.
Proof.
  intros Hread x. destruct (bytes_at_elim _ _ _ _ Hread) as [Hlen Hget].
  destruct (Z_lt_dec x a) as [Hlo|Hlo];
    [apply byte_at_write_outside; lia|].
  destruct (Z_le_dec (a + Z.of_nat (length bs)) x) as [Hhi|Hhi];
    [apply byte_at_write_outside; lia|].
  assert (Hlt : (Z.to_nat (x - a) < length bs)%nat) by lia.
  destruct (lookup_lt_is_Some_2 bs _ Hlt) as [b Hb].
  pose proof (Hget _ _ Hb) as Hold.
  pose proof (write_bytes_lookup_inside bs a (contents w) _ b Hb) as Hnew.
  replace (a + Z.of_nat (Z.to_nat (x - a))) with x in * by lia.
  rewrite byte_at_with_contents. unfold byte_at in *.
  destruct (prot_at (regions w) x); [|reflexivity].
  rewrite Hnew. rewrite <- Hold. reflexivity.
Qed.

(** A range whose bytes are all mapped under an accepted protection holds
    bytes. *)
Lemma range_allows_mapped (ok : Z -> bool) (w : World) (n : nat) :
  forall a, range_allows ok (regions w) a n = true ->
            exists bs, bytes_at w a n = Some bs.
Proof.
  induction n as [|n IH]; intros a H; cbn [range_allows bytes_at] in *.
  - exists nil. reflexivity.
  - apply andb_prop in H. destruct H as [Hb Hr].
    destruct (IH _ Hr) as [bs Hbs]. rewrite Hbs.
    unfold byte_allows in Hb. unfold byte_at.
    destruct (prot_at (regions w) a); [|discriminate Hb].
    eexists. reflexivity.
Qed.

Lemma range_allows_unmapped (ok : Z -> bool) (rs : list Region) (n : nat) :
  forall (a : Z) (i : nat),
    (i < n)%nat -> prot_at rs (a + Z.of_nat i) = None ->
    range_allows ok rs a n = false.
Proof.
  induction n as [|n IH]; intros a i Hi Hnone; [lia|].
  cbn [range_allows]. destruct i as [|i].
  - rewrite Z.add_0_r in Hnone. unfold byte_allows. rewrite Hnone. reflexivity.
  - rewrite (IH (a + 1) i) by
      (try lia; replace (a + 1 + Z.of_nat i) with (a + Z.of_nat (S i)) by lia;
       exact Hnone).
    apply andb_false_r.
Qed.

(** ** The word patcher *)

Section Patcher.

Context {os : HostOS}.

Lemma load_u64_word_at (p : Platform) (w : World) (a v : Z) :
  load_u64 p w a = Some v ->
  range_allows (can_read p) (regions w) a 8 = true /\ word_at w a = Some v.
Proof.
  unfold load_u64. destruct (range_allows _ _ _ _); [auto|discriminate].
Qed.

Lemma load_u64_same_memory (p : Platform) (w w' : World) (a : Z) :
  regions w' = regions w -> contents w' = contents w ->
  load_u64 p w' a = load_u64 p w a.
Proof.
  intros Hr Hc. unfold load_u64, word_at.
  rewrite Hr, (bytes_at_same_memory w w' 8 Hr Hc). reflexivity.
Qed.

Lemma memory_patch_prologue (p : Platform) (w : World) :
  (if is_apple_aarch64 p
   then sys_pthread_jit_write_protect_np false else ret tt) w
  = Returned tt (before_store p w).
Proof. unfold before_store. destruct (is_apple_aarch64 p); reflexivity. Qed.

Lemma regions_before_store (p : Platform) (w : World) :
  regions (before_store p w) = regions w.
Proof. unfold before_store. destruct (is_apple_aarch64 p); reflexivity. Qed.

Lemma contents_before_store (p : Platform) (w : World) :
  contents (before_store p w) = contents w.
Proof. unfold before_store. destruct (is_apple_aarch64 p); reflexivity. Qed.

(** [memory_patch] on a word that may be read and written: it stores, never
    flushes, and returns whether the word differed. *)
Lemma memory_patch_mapped (p : Platform) (vaddr value : Z) (w : World)
    (bs : list byte) :
  range_allows (can_read p) (regions w) vaddr 8 = true ->
  store_permitted p w vaddr = true ->
  bytes_at w vaddr 8 = Some bs ->
  memory_patch p vaddr value w =
  Returned (negb (le_combine bs =? value))
           (after_store p
              (with_contents (write_bytes vaddr (le_split 8 value))
                 (before_store p w))).
Proof.
  intros Hr Hw Hread.
  unfold memory_patch, MemoryMode_value_init, bind, when.
  cbn [containsExecuteMode]. rewrite memory_patch_prologue.
  unfold deref_read.
  rewrite (load_u64_same_memory p w (before_store p w) vaddr
             (regions_before_store p w) (contents_before_store p w)).
  unfold load_u64, word_at. rewrite Hr, Hread.
  unfold deref_write, store_permitted in *.
  rewrite regions_before_store, Hw.
  unfold ret, after_store. destruct (is_apple_aarch64 p); reflexivity.
Qed.

(** [memory_patch] on a word it may not read, or may not write: the
    dereference faults and nothing is written. *)
Lemma memory_patch_faults (p : Platform) (vaddr value : Z) (w : World) :
  load_u64 p w vaddr = None \/ store_permitted p w vaddr = false ->
  memory_patch p vaddr value w = Halted AccessViolation (before_store p w).
Proof.
  intros Hcase.
  unfold memory_patch, MemoryMode_value_init, bind, when.
  rewrite memory_patch_prologue. unfold deref_read.
  rewrite (load_u64_same_memory p w (before_store p w) vaddr
             (regions_before_store p w) (contents_before_store p w)).
  destruct (load_u64 p w vaddr) as [v|]; [|reflexivity].
  destruct Hcase as [Hl|Hw]; [discriminate Hl|].
  unfold deref_write, store_permitted in *.
  rewrite regions_before_store, Hw. reflexivity.
Qed.

(** The two ways a call to [memory_patch] ends. *)
Lemma memory_patch_cases (p : Platform) (vaddr value : Z) (w : World) :
  (exists bs,
      bytes_at w vaddr 8 = Some bs /\
      range_allows (can_read p) (regions w) vaddr 8 = true /\
      store_permitted p w vaddr = true /\
      memory_patch p vaddr value w =
      Returned (negb (le_combine bs =? value))
               (after_store p
                  (with_contents (write_bytes vaddr (le_split 8 value))
                     (before_store p w))))
  \/ memory_patch p vaddr value w = Halted AccessViolation (before_store p w).
Proof.
  destruct (range_allows (can_read p) (regions w) vaddr 8) eqn:Hr.
  - destruct (store_permitted p w vaddr) eqn:Hw.
    + destruct (range_allows_mapped _ w 8 vaddr Hr) as [bs Hbs].
      left. exists bs. repeat split; auto using memory_patch_mapped.
    + right. apply memory_patch_faults. right. exact Hw.
  - right. apply memory_patch_faults. left. unfold load_u64. rewrite Hr.
    reflexivity.
Qed.

(** [memory_patch] on a word that is not wholly mapped faults. *)
Lemma memory_patch_unmapped (p : Platform) (vaddr value : Z) (w : World) :
  bytes_at w vaddr 8 = None ->
  memory_patch p vaddr value w = Halted AccessViolation (before_store p w).
Proof.
  intros Hread. destruct (memory_patch_cases p vaddr value w)
    as [(bs & Hbs & _)|H]; [congruence|exact H].
Qed.

Lemma regions_after_store (p : Platform) (w : World) :
  regions (after_store p w) = regions w.
Proof. unfold after_store. destruct (is_apple_aarch64 p); reflexivity. Qed.

Lemma contents_after_store (p : Platform) (w : World) :
  contents (after_store p w) = contents w.
Proof. unfold after_store. destruct (is_apple_aarch64 p); reflexivity. Qed.

(** Every byte of the state after a patch, in terms of the state before. *)
Lemma byte_at_patched (p : Platform) (vaddr : Z) (bs : list byte)
    (w : World) (a : Z) :
  byte_at (after_store p (with_contents (write_bytes vaddr bs) (before_store p w))) a =
  byte_at (with_contents (write_bytes vaddr bs) w) a.
Proof.
  apply byte_at_same_memory.
  - rewrite regions_after_store. cbn. apply regions_before_store.
  - rewrite contents_after_store. cbn. rewrite contents_before_store. reflexivity.
Qed.

(** C3: when the eight bytes at [vaddr] can be read and hold the value
    [old], and the word is writable as the patch requires of its caller,
    [memory_patch vaddr value] returns, its result is [true] exactly when
    [old] differs from [value], afterwards reading the eight bytes at
    [vaddr] gives [value], and when [old] already equals [value] every byte
    of memory holds what it held. *)
Theorem memory_patch_reports_change (p : Platform) (vaddr old value : Z)
    (w : World) :
  load_u64 p w vaddr = Some old ->
  store_permitted p w vaddr = true ->
  is_u64 value ->
  exists (changed : bool) (w' : World),
    memory_patch p vaddr value w = Returned changed w' /\
    (changed = true <-> old <> value) /\
    (changed = false <-> old = value) /\
    load_u64 p w' vaddr = Some value /\
    (old = value -> forall a, byte_at w' a = byte_at w a).
Proof.
  intros Hload Hstore Hval.
  destruct (load_u64_word_at _ _ _ _ Hload) as [Hr Hword].
  unfold word_at in Hword.
  destruct (bytes_at w vaddr 8) as [bs|] eqn:Hread; [|discriminate].
  injection Hword as Hold.
  exists (negb (old =? value)). eexists.
  split; [rewrite <- Hold; apply memory_patch_mapped; assumption|].
  split; [destruct (Z.eqb_spec old value); cbn; intuition congruence|].
  split; [destruct (Z.eqb_spec old value); cbn; intuition congruence|].
  split.
  - rewrite (load_u64_same_memory p
               (with_contents (write_bytes vaddr (le_split 8 value)) w)).
    + unfold load_u64, word_at. cbn [regions with_contents]. rewrite Hr.
      rewrite (bytes_at_after_write w vaddr 8 bs) by
        (auto using length_le_split).
      rewrite le_combine_split. f_equal. apply Z.mod_small. exact Hval.
    + rewrite regions_after_store. cbn. apply regions_before_store.
    + rewrite contents_after_store. cbn. rewrite contents_before_store.
      reflexivity.
  - intros Heq a. rewrite byte_at_patched.
    destruct (bytes_at_elim _ _ _ _ Hread) as [Hlen _].
    replace (le_split 8 value) with bs.
    + apply (byte_at_write_back w vaddr 8 bs Hread).
    + rewrite <- Heq, <- Hold, <- Hlen. symmetry. apply split_le_combine.
Qed.

Lemma protection_changes_before_store (p : Platform) (w : World) :
  filter is_protection_change (calls (before_store p w)) =
  filter is_protection_change (calls w).
Proof.
  unfold before_store. destruct (is_apple_aarch64 p); [|reflexivity].
  cbn. rewrite filter_app. cbn. apply app_nil_r.
Qed.

Lemma protection_changes_after_store (p : Platform) (w : World) :
  filter is_protection_change (calls (after_store p w)) =
  filter is_protection_change (calls w).
Proof.
  unfold after_store. destruct (is_apple_aarch64 p); [|reflexivity].
  cbn. rewrite filter_app. cbn. apply app_nil_r.
Qed.

(** C10: whatever [memory_patch vaddr value] does -- return or fault -- every
    byte outside [[vaddr, vaddr + 8)] reads afterwards as it did before, the
    table of mapped regions and their protection is the same, and no
    protection-changing native call has been issued. *)
Theorem memory_patch_frame (p : Platform) (vaddr value : Z) (w : World) :
  let w' := outcome_world (memory_patch p vaddr value w) in
  (forall a, a < vaddr \/ vaddr + 8 <= a -> byte_at w' a = byte_at w a) /\
  regions w' = regions w /\
  (forall a, prot_at (regions w') a = prot_at (regions w) a) /\
  filter is_protection_change (calls w') = filter is_protection_change (calls w).
Proof.
  destruct (memory_patch_cases p vaddr value w) as [(bs & _ & _ & _ & ->)| ->].
  - cbn zeta. cbn [outcome_world].
    assert (Hreg : regions (after_store p
                     (with_contents (write_bytes vaddr (le_split 8 value))
                        (before_store p w))) = regions w).
    { rewrite regions_after_store. cbn. apply regions_before_store. }
    split; [|split; [exact Hreg|split]].
    + intros a Ha. rewrite byte_at_patched.
      apply byte_at_write_outside. rewrite length_le_split. lia.
    + intros a. rewrite Hreg. reflexivity.
    + rewrite protection_changes_after_store. cbn.
      apply protection_changes_before_store.
  - cbn zeta. cbn [outcome_world].
    split; [|split; [apply regions_before_store|split]].
    + intros a _. apply byte_at_same_memory;
        [apply regions_before_store|apply contents_before_store].
    + intros a. rewrite regions_before_store. reflexivity.
    + apply protection_changes_before_store.
Qed.

End Patcher.

(** ** The allocator *)

Section Allocator.

Variables USER_MIN USER_MAX : Z.
Context {os : HostOS}.

(** What [memory_alloc] does, by the answer of the native allocator. *)
Lemma memory_alloc_outcome (p : Platform) (address size : Z) (mode : MemoryMode)
    (w : World) :
  let c := alloc_call p address size mode in
  let r := alloc_return p w c in
  memory_alloc p address size mode w =
  if r =? alloc_failure p
  then Returned r
         (with_log (mkLog (if is_win64 p then "VirtualAlloc() failed: 0x{:X}"
                           else "mmap() failed: {}")
                          (if is_win64 p then host_error w c mod 2 ^ 32
                           else host_error w c))
            (with_last_error (host_error w c) (with_call c w)))
  else Returned r
         (with_regions
            (cons (mkRegion r size
                     (if is_win64 p then convertMemoryMode p mode
                      else Z.lor (Z.lor PROT_EXEC PROT_READ) PROT_WRITE)))
            (with_call c w)).
Proof.
  destruct p; cbn zeta;
    unfold memory_alloc, alloc_call, sys_VirtualAlloc, sys_mmap, native_alloc,
      bind, when, alloc_failure;
    cbn [is_win64];
    match goal with
    | |- context [alloc_return ?q w ?c] =>
        destruct (alloc_return q w c =? _) eqn:E
    end;
    cbn [alloc_failure is_win64] in *; try rewrite E; reflexivity.
Qed.

(** On Windows a successful [memory_alloc] maps the new region with the
    native encoding of the requested mode. *)
Lemma memory_alloc_win64_protection (address size : Z) (mode : MemoryMode)
    (w : World) :
  alloc_return Win64 w (alloc_call Win64 address size mode) <> 0 ->
  exists ptr w',
    memory_alloc Win64 address size mode w = Returned ptr w' /\
    regions w' = mkRegion ptr size (convertMemoryMode Win64 mode) :: regions w.
Proof.
  intros Hok. rewrite memory_alloc_outcome. cbn zeta.
  change (alloc_failure Win64) with 0.
  destruct (Z.eqb_spec (alloc_return Win64 w (alloc_call Win64 address size mode)) 0)
    as [E|_]; [contradiction|].
  eexists _, _. split; reflexivity.
Qed.

(** On a POSIX target a successful [memory_alloc] maps the new region
    readable, writable and executable, whatever mode was requested. *)
Lemma memory_alloc_posix_protection (p : Platform) (address size : Z)
    (mode : MemoryMode) (w : World) :
  is_win64 p = false ->
  alloc_return p w (alloc_call p address size mode) <> MAP_FAILED ->
  exists ptr w',
    memory_alloc p address size mode w = Returned ptr w' /\
    regions w' =
      mkRegion ptr size (Z.lor (Z.lor PROT_EXEC PROT_READ) PROT_WRITE) :: regions w.
Proof.
  intros Hp Hok. rewrite memory_alloc_outcome. cbn zeta.
  unfold alloc_failure. rewrite Hp.
  destruct (Z.eqb_spec (alloc_return p w (alloc_call p address size mode)) MAP_FAILED)
    as [E|_]; [contradiction|].
  eexists _, _. split; reflexivity.
Qed.

(** What [memory_alloc_aligned] does, by the answer of the native
    allocator. *)
Lemma memory_alloc_aligned_outcome (p : Platform) (address size : Z)
    (mode : MemoryMode) (alignment : Z) (w : World) :
  let c := alloc_aligned_call USER_MIN USER_MAX p address size mode alignment in
  let r := alloc_return p w c in
  memory_alloc_aligned USER_MIN USER_MAX p address size mode alignment w =
  if r =? alloc_failure p
  then (if is_win64 p
        then Returned r
               (with_log (mkLog "VirtualAlloc2() failed: 0x{:X}"
                                (host_error w c mod 2 ^ 32))
                  (with_last_error (host_error w c) (with_call c w)))
        else Halted AssertionFailed
               (with_last_error (host_error w c) (with_call c w)))
  else Returned r
         (with_regions (cons (mkRegion r size (convertMemoryMode p mode)))
            (with_call c w)).
Proof.
  destruct p; cbn zeta;
    unfold memory_alloc_aligned, alloc_aligned_call, sys_VirtualAlloc2, sys_mmap,
      native_alloc, bind, when, ASSERT, alloc_failure;
    cbn [is_win64];
    match goal with
    | |- context [alloc_return ?q w ?c] =>
        destruct (alloc_return q w c =? _) eqn:E
    end;
    cbn [alloc_failure is_win64 negb] in *; try rewrite E; reflexivity.
Qed.

(** C6 (Windows returns, POSIX halts): when the native allocation fails, on
    Windows [memory_alloc_aligned] returns the failure value [0], having
    logged the native error code and mapped nothing; on a POSIX target the
    assertion on the result of [mmap] halts execution, and
    [memory_alloc_aligned] has issued no [LOG_ERROR] of its own. *)
Theorem memory_alloc_aligned_failure (p : Platform) (address size : Z)
    (mode : MemoryMode) (alignment : Z) (w : World) :
  let c := alloc_aligned_call USER_MIN USER_MAX p address size mode alignment in
  alloc_return p w c = alloc_failure p ->
  exists w',
    memory_alloc_aligned USER_MIN USER_MAX p address size mode alignment w =
      (if is_win64 p then Returned 0 w' else Halted AssertionFailed w') /\
    log w' =
      (if is_win64 p
       then log w ++ mkLog "VirtualAlloc2() failed: 0x{:X}"
                           (host_error w c mod 2 ^ 32) :: nil
       else log w) /\
    regions w' = regions w.
Proof.
  intros c Hfail. rewrite memory_alloc_aligned_outcome. cbn zeta. fold c.
  rewrite Hfail, Z.eqb_refl.
  destruct p; cbn [is_win64 alloc_failure]; eexists; repeat split; reflexivity.
Qed.

(** [memory_alloc_aligned] adds one native allocation call to the trace,
    whether it then returns or halts, and that call carries [USER_MIN] as
    its lower search bound when [address] is zero and the value of
    [AlignUp address alignment] otherwise. *)
Lemma memory_alloc_aligned_issues_call (p : Platform) (address size : Z)
    (mode : MemoryMode) (alignment : Z) (w : World) :
  exists c,
    calls (outcome_world
             (memory_alloc_aligned USER_MIN USER_MAX p address size mode alignment w))
      = calls w ++ c :: nil /\
    lower_bound c =
      Some (if address =? 0 then USER_MIN else AlignUp address alignment).
Proof.
  exists (alloc_aligned_call USER_MIN USER_MAX p address size mode alignment).
  split.
  - rewrite memory_alloc_aligned_outcome. cbn zeta.
    destruct (_ =? alloc_failure p); [destruct (is_win64 p)|]; reflexivity.
  - unfold alloc_aligned_call. destruct (is_win64 p); reflexivity.
Qed.

End Allocator.

(** ** The protector and the synchronizer *)

Section Protector.

Context {os : HostOS}.

(** What [memory_protect] does, by the answer of the native call. *)
Lemma memory_protect_outcome (p : Platform) (address size : Z) (mode : MemoryMode)
    (old_mode : option MemoryMode) (w : World) :
  let c := protect_call p address size mode in
  let w1 := with_call c w in
  memory_protect p address size mode old_mode w =
  if host_refuses w c
  then (if is_win64 p
        then Returned (false, old_mode)
               (with_log (mkLog "VirtualProtect() failed: 0x{:X}"
                                (host_error w c mod 2 ^ 32))
                  (with_last_error (host_error w c) w1))
        else Halted AssertionFailed (with_last_error (host_error w c) w1))
  else Returned
         (true,
          if is_win64 p
          then match old_mode with
               | Some _ =>
                   Some (convertMemoryMode_u32 p
                           (default 0 (prot_at (regions w) address)))
               | None => None
               end
          else old_mode)
         (with_regions
            (reprotect (Z.pos host_page_size) address size (convertMemoryMode p mode))
            w1).
Proof.
  destruct p; cbn zeta;
    unfold memory_protect, protect_call, sys_VirtualProtect, sys_mprotect,
      bind, when, ASSERT;
    cbn [is_win64];
    match goal with
    | |- context [host_refuses w ?c] => destruct (host_refuses w c)
    end; reflexivity.
Qed.

(** On Windows a successful [memory_protect] hands back, through a supplied
    [old_mode], the decoding of the protection the range had. *)
Lemma memory_protect_win64_old_mode (address size : Z) (mode cell : MemoryMode)
    (previous : Z) (w w' : World) (out : option MemoryMode) :
  prot_at (regions w) address = Some previous ->
  memory_protect Win64 address size mode (Some cell) w = Returned (true, out) w' ->
  out = Some (convertMemoryMode_u32 Win64 previous).
Proof.
  intros Hprev. rewrite memory_protect_outcome. cbn zeta. rewrite Hprev.
  destruct (host_refuses w _); cbn; congruence.
Qed.

(** On a POSIX target [memory_protect] never writes through [old_mode]. *)
Lemma memory_protect_posix_old_mode (p : Platform) (address size : Z)
    (mode : MemoryMode) (old_mode out : option MemoryMode) (ok : bool)
    (w w' : World) :
  is_win64 p = false ->
  memory_protect p address size mode old_mode w = Returned (ok, out) w' ->
  out = old_mode.
Proof.
  intros Hp. rewrite memory_protect_outcome. cbn zeta. rewrite Hp.
  destruct (host_refuses w _); congruence.
Qed.

(** C8: when the native protection change fails, [memory_protect] on
    Windows logs the error and returns [false], and on a POSIX target halts
    on its assertion; so on a POSIX target every result it returns is
    [true]. *)
Theorem memory_protect_failure_policy (p : Platform) (address size : Z)
    (mode : MemoryMode) (old_mode : option MemoryMode) (w : World) :
  let c := protect_call p address size mode in
  let out := memory_protect p address size mode old_mode w in
  (host_refuses w c = true ->
   exists w',
     out = (if is_win64 p then Returned (false, old_mode) w'
            else Halted AssertionFailed w') /\
     regions w' = regions w /\
     log w' = (if is_win64 p
               then log w ++ mkLog "VirtualProtect() failed: 0x{:X}"
                                   (host_error w c mod 2 ^ 32) :: nil
               else log w)) /\
  (is_win64 p = false ->
   forall ok cell w', out = Returned (ok, cell) w' -> ok = true).
Proof.
  cbn zeta. rewrite memory_protect_outcome. cbn zeta. split.
  - intros ->. destruct (is_win64 p); eexists; repeat split; reflexivity.
  - intros -> ok cell w'.
    destruct (host_refuses w _); [discriminate|congruence].
Qed.

(** On Windows [memory_flush] always issues [FlushInstructionCache] over
    the range it is given. *)
Lemma memory_flush_win64_calls (address size : Z) (w : World) :
  calls (outcome_world (memory_flush Win64 address size w)) =
  calls w ++ FlushInstructionCache address size :: nil.
Proof.
  unfold memory_flush, sys_FlushInstructionCache, bind. cbn [is_win64].
  destruct (host_refuses w _); reflexivity.
Qed.

(** [memory_patch] issues no instruction-cache flush, on any platform and
    whatever the protection of the range. *)
Lemma memory_patch_never_flushes (p : Platform) (vaddr value : Z) (w : World) :
  filter is_flush (calls (outcome_world (memory_patch p vaddr value w))) =
  filter is_flush (calls w).
Proof.
  assert (Hb : filter is_flush (calls (before_store p w)) = filter is_flush (calls w)).
  { unfold before_store. destruct (is_apple_aarch64 p); [|reflexivity].
    cbn. rewrite filter_app. cbn. apply app_nil_r. }
  destruct (memory_patch_cases p vaddr value w) as [(bs & _ & _ & _ & ->)| ->].
  - cbn [outcome_world].
    unfold after_store. destruct (is_apple_aarch64 p); [|exact Hb].
    cbn. rewrite filter_app. cbn. rewrite app_nil_r. exact Hb.
  - exact Hb.
Qed.

End Protector.

(** ** Worked evaluations *)

(** C2: on a POSIX target [memory_alloc 0 4096 Read] succeeds with the new
    region mapped under protection [PROT_EXEC | PROT_READ | PROT_WRITE]
    (7), while the native encoding of the requested mode [Read] is
    [PROT_READ] (1). *)
Theorem memory_alloc_posix_ignores_mode :
  exists ptr w',
    memory_alloc (os := granting_host) Posix 0 4096 Read empty_world
      = Returned ptr w' /\
    ptr <> MAP_FAILED /\
    regions w' = mkRegion ptr 4096 7 :: nil /\
    requested_protection (alloc_call Posix 0 4096 Read) = Some 7 /\
    convertMemoryMode Posix Read = 1.
Proof.
  eexists _, _. repeat split. discriminate.
Qed.

(** C4: on Windows, patching a word of a page mapped
    [PAGE_EXECUTE_READWRITE] stores the value and returns [true] without
    any call to [FlushInstructionCache], which [memory_flush] would have
    issued. *)
Theorem memory_patch_executable_no_flush :
  let w := one_page 0x10000 (PAGE_EXECUTE_READWRITE Win64) in
  option_map (fun prot => containsExecuteMode (convertMemoryMode_u32 Win64 prot))
             (prot_at (regions w) 0x10008) = Some true /\
  exists w',
    memory_patch (os := granting_host) Win64 0x10008 0x1122334455667788 w
      = Returned true w' /\
    load_u64 (os := granting_host) Win64 w' 0x10008 = Some 0x1122334455667788 /\
    calls w' = nil /\
    calls (outcome_world (memory_flush (os := granting_host) Win64 0x10008 8 w'))
      = FlushInstructionCache 0x10008 8 :: nil.
Proof.
  cbn zeta. split; [reflexivity|].
  eexists. split; [vm_compute; reflexivity|].
  repeat split; vm_compute; reflexivity.
Qed.

(** C5: on a POSIX target, [memory_protect] over a page mapped
    [PROT_READ | PROT_WRITE] succeeds and leaves the supplied [old_mode]
    cell at its initial [NoAccess], while the previous protection decodes to
    [ReadWrite]. *)
Theorem memory_protect_posix_old_mode_unset :
  let w := one_page 0x10000 (PAGE_READWRITE Posix) in
  option_map (convertMemoryMode_u32 Posix) (prot_at (regions w) 0x10000)
    = Some ReadWrite /\
  exists w',
    memory_protect (os := granting_host) Posix 0x10000 4096 Read (Some NoAccess) w
      = Returned (true, Some NoAccess) w' /\
    prot_at (regions w') 0x10000 = Some (convertMemoryMode Posix Read).
Proof.
  cbn zeta. split; [reflexivity|].
  eexists. split; reflexivity.
Qed.

(** C6 does not hold on a POSIX target: there the native allocation fails
    and [memory_alloc_aligned] halts on its assertion; it returns no value
    and has issued no [LOG_ERROR]. *)
Lemma memory_alloc_aligned_posix_failure_halts :
  let c := alloc_aligned_call sample_USER_MIN sample_USER_MAX
             Posix 0 4096 ReadWrite 4096 in
  alloc_return (os := refusing_host) Posix empty_world c = alloc_failure Posix /\
  exists w',
    memory_alloc_aligned (os := refusing_host) sample_USER_MIN sample_USER_MAX
      Posix 0 4096 ReadWrite 4096 empty_world = Halted AssertionFailed w' /\
    log w' = nil /\
    forall r w'',
      memory_alloc_aligned (os := refusing_host) sample_USER_MIN sample_USER_MAX
        Posix 0 4096 ReadWrite 4096 empty_world <> Returned r w''.
Proof.
  cbn zeta. split; [reflexivity|].
  eexists. split; [vm_compute; reflexivity|].
  split; [reflexivity|]. intros r w'' H. vm_compute in H. discriminate H.
Qed.

(** ** The conditional theorems at concrete inputs *)

(** [AlignUp 5 8 = 8]: the hypotheses of [AlignUp_least_multiple] hold at
    [pos = 5], [k = 3]. *)
Lemma AlignUp_least_multiple_witness :
  is_u64 5 /\ 0 <= 3 < 64 /\
  AlignUp 5 0 = 5 /\
  exists m, least_multiple_ge (2 ^ 3) 5 m /\ AlignUp 5 (2 ^ 3) = wrap64 m.
Proof.
  assert (H5 : is_u64 5) by (unfold is_u64, u64_modulus; lia).
  assert (H3 : 0 <= 3 < 64) by lia.
  split; [exact H5|]. split; [exact H3|].
  exact (AlignUp_least_multiple 5 3 H5 H3).
Defined.

(** Patching a fresh (zero) word of a read-write page with a non-zero
    value. *)
Lemma memory_patch_reports_change_witness :
  let w := one_page 0x10000 (PAGE_READWRITE Posix) in
  load_u64 (os := granting_host) Posix w 0x10008 = Some 0 /\
  store_permitted Posix w 0x10008 = true /\
  is_u64 0x1122334455667788 /\
  exists (changed : bool) (w' : World),
    memory_patch (os := granting_host) Posix 0x10008 0x1122334455667788 w
      = Returned changed w' /\
    (changed = true <-> 0 <> 0x1122334455667788) /\
    (changed = false <-> 0 = 0x1122334455667788) /\
    load_u64 (os := granting_host) Posix w' 0x10008 = Some 0x1122334455667788 /\
    (0 = 0x1122334455667788 -> forall a, byte_at w' a = byte_at w a).
Proof.
  cbn zeta.
  assert (Hl : load_u64 (os := granting_host) Posix
                 (one_page 0x10000 (PAGE_READWRITE Posix)) 0x10008 = Some 0)
    by reflexivity.
  assert (Hs : store_permitted Posix
                 (one_page 0x10000 (PAGE_READWRITE Posix)) 0x10008 = true)
    by reflexivity.
  assert (Hv : is_u64 0x1122334455667788) by (unfold is_u64, u64_modulus; lia).
  split; [exact Hl|]. split; [exact Hs|]. split; [exact Hv|].
  exact (memory_patch_reports_change (os := granting_host) Posix 0x10008 0
           0x1122334455667788 _ Hl Hs Hv).
Defined.

(** A refused [VirtualAlloc2]: the Windows side of
    [memory_alloc_aligned_failure]. *)
Lemma memory_alloc_aligned_failure_witness :
  let c := alloc_aligned_call sample_USER_MIN sample_USER_MAX
             Win64 0 4096 ReadWrite 65536 in
  alloc_return (os := refusing_host) Win64 empty_world c = alloc_failure Win64 /\
  exists w',
    memory_alloc_aligned (os := refusing_host) sample_USER_MIN sample_USER_MAX
      Win64 0 4096 ReadWrite 65536 empty_world = Returned 0 w' /\
    log w' = mkLog "VirtualAlloc2() failed: 0x{:X}" 8 :: nil /\
    regions w' = nil.
Proof.
  cbn zeta.
  assert (Hf : alloc_return (os := refusing_host) Win64 empty_world
                 (alloc_aligned_call sample_USER_MIN sample_USER_MAX
                    Win64 0 4096 ReadWrite 65536) = alloc_failure Win64)
    by reflexivity.
  split; [exact Hf|].
  exact (memory_alloc_aligned_failure (os := refusing_host)
           sample_USER_MIN sample_USER_MAX Win64 0 4096 ReadWrite 65536
           empty_world Hf).
Defined.

(** A refused protection change on each side of
    [memory_protect_failure_policy]. *)
Lemma memory_protect_failure_policy_witness :
  let w := one_page 0x10000 (PAGE_READWRITE Posix) in
  (exists w',
     memory_protect (os := refusing_host) Win64 0x10000 4096 Read (Some Execute) w
       = Returned (false, Some Execute) w' /\
     regions w' = regions w /\
     log w' = mkLog "VirtualProtect() failed: 0x{:X}" 8 :: nil) /\
  (exists w',
     memory_protect (os := refusing_host) Posix 0x10000 4096 Read (Some Execute) w
       = Halted AssertionFailed w' /\
     regions w' = regions w /\
     log w' = nil).
Proof.
  cbn zeta. split.
  - exact (proj1 (memory_protect_failure_policy (os := refusing_host) Win64
                    0x10000 4096 Read (Some Execute)
                    (one_page 0x10000 (PAGE_READWRITE Posix))) eq_refl).
  - exact (proj1 (memory_protect_failure_policy (os := refusing_host) Posix
                    0x10000 4096 Read (Some Execute)
                    (one_page 0x10000 (PAGE_READWRITE Posix))) eq_refl).
Defined.

(** * Further properties of the layer *)

(** ** The codec, beyond the round trip *)

Lemma decode_encode_class (p : Platform) (m : MemoryMode) :
  convertMemoryMode_u32 p (convertMemoryMode p m) = mode_class m.
Proof. destruct p, m; reflexivity. Qed.

(** X1: a native value decodes to [NoAccess] exactly when it is
    [PAGE_NOACCESS] or the encoding of no mode at all; unrecognised values
    are not rejected, they read as [NoAccess]. *)
Theorem convertMemoryMode_u32_NoAccess_iff (p : Platform) (n : Z) :
  convertMemoryMode_u32 p n = NoAccess <->
  n = PAGE_NOACCESS p \/ (forall m, convertMemoryMode p m <> n).
Proof.
  split.
  - unfold convertMemoryMode_u32.
    destruct (Z.eqb_spec n (PAGE_NOACCESS p)) as [E0|N0]; [left; exact E0|].
    destruct (Z.eqb_spec n (PAGE_READONLY p)) as [_|N1]; [discriminate|].
    destruct (Z.eqb_spec n (PAGE_READWRITE p)) as [_|N2]; [discriminate|].
    destruct (Z.eqb_spec n (PAGE_EXECUTE p)) as [_|N3]; [discriminate|].
    destruct (Z.eqb_spec n (PAGE_EXECUTE_READ p)) as [_|N4]; [discriminate|].
    destruct (Z.eqb_spec n (PAGE_EXECUTE_READWRITE p)) as [_|N5]; [discriminate|].
    intros _. right. intros m E.
    destruct m; cbn [convertMemoryMode] in E; congruence.
  - intros [->|Hn].
    + unfold convertMemoryMode_u32. rewrite Z.eqb_refl. reflexivity.
    + apply convertMemoryMode_u32_unrecognised, Hn.
Qed.

(** X2: encoding what was decoded gives the native value back exactly when
    that value is the encoding of some mode; every other native value comes
    back as [PAGE_NOACCESS]. *)
Theorem convertMemoryMode_reencode (p : Platform) (n : Z) :
  ((exists m, convertMemoryMode p m = n) /\
   convertMemoryMode p (convertMemoryMode_u32 p n) = n)
  \/
  ((forall m, convertMemoryMode p m <> n) /\
   convertMemoryMode p (convertMemoryMode_u32 p n) = PAGE_NOACCESS p).
Proof.
  unfold convertMemoryMode_u32.
  destruct (Z.eqb_spec n (PAGE_NOACCESS p)) as [->|N0];
    [left; split; [exists NoAccess|]; reflexivity|].
  destruct (Z.eqb_spec n (PAGE_READONLY p)) as [->|N1];
    [left; split; [exists Read|]; reflexivity|].
  destruct (Z.eqb_spec n (PAGE_READWRITE p)) as [->|N2];
    [left; split; [exists ReadWrite|]; reflexivity|].
  destruct (Z.eqb_spec n (PAGE_EXECUTE p)) as [->|N3];
    [left; split; [exists Execute|]; reflexivity|].
  destruct (Z.eqb_spec n (PAGE_EXECUTE_READ p)) as [->|N4];
    [left; split; [exists ExecuteRead|]; reflexivity|].
  destruct (Z.eqb_spec n (PAGE_EXECUTE_READWRITE p)) as [->|N5];
    [left; split; [exists ExecuteReadWrite|]; reflexivity|].
  right. split; [|reflexivity].
  intros m E. destruct m; cbn [convertMemoryMode] in E; congruence.
Qed.

(** X3: two modes have the same native encoding exactly when they are in
    the same class; the six encodings are pairwise distinct on every
    platform. *)
Theorem convertMemoryMode_eq_iff_class (p : Platform) (a b : MemoryMode) :
  convertMemoryMode p a = convertMemoryMode p b <-> mode_class a = mode_class b.
Proof.
  destruct p, a, b; vm_compute; split; intros H;
    first [reflexivity | discriminate H].
Qed.

(** X4: decoding never produces [Write] or [ExecuteWrite]: whatever the
    native value, the result is the named member of its class. *)
Theorem convertMemoryMode_u32_canonical (p : Platform) (n : Z) :
  mode_class (convertMemoryMode_u32 p n) = convertMemoryMode_u32 p n /\
  convertMemoryMode_u32 p n <> Write /\
  convertMemoryMode_u32 p n <> ExecuteWrite.
Proof.
  unfold convertMemoryMode_u32.
  repeat match goal with
         | |- context [?x =? ?y] => destruct (x =? y)
         end;
    (split; [reflexivity|split; discriminate]).
Qed.

(** ** AlignUp, beyond the least multiple *)

(** The closed form of [AlignUp] at a power of two. *)
Lemma AlignUp_pow2 (pos k : Z) :
  is_u64 pos -> 0 <= k < 64 ->
  AlignUp pos (2 ^ k) = wrap64 (2 ^ k * ((pos + (2 ^ k - 1)) / 2 ^ k)).
Proof.
  intros Hpos Hk. pose proof (pow2_below_modulus k Hk) as [Ha Hlt].
  unfold AlignUp.
  destruct (Z.eqb_spec (2 ^ k) 0) as [E|_]; [lia|]. cbn [negb].
  unfold sub64. rewrite (wrap64_small (2 ^ k - 1)) by (unfold is_u64; lia).
  unfold add64.
  rewrite and64_not64_low_mask by (auto using wrap64_range; lia).
  apply round_down_wrap64, Hk.
Qed.

Lemma AlignUp_pow2_mod (pos k : Z) :
  is_u64 pos -> 0 <= k < 64 -> AlignUp pos (2 ^ k) mod 2 ^ k = 0.
Proof.
  intros Hpos Hk. pose proof (pow2_below_modulus k Hk) as [Ha _].
  assert (Hc : 0 < 2 ^ (64 - k)) by (apply Z.pow_pos_nonneg; lia).
  rewrite AlignUp_pow2 by assumption. unfold wrap64.
  rewrite (u64_modulus_split k Hk), Z.mul_mod_distr_l by lia.
  rewrite Z.mul_comm. apply Z.mod_mul. lia.
Qed.

Lemma AlignUp_of_multiple (pos k : Z) :
  is_u64 pos -> 0 <= k < 64 -> pos mod 2 ^ k = 0 ->
  AlignUp pos (2 ^ k) = pos.
Proof.
  intros Hpos Hk Hmod. pose proof (pow2_below_modulus k Hk) as [Ha _].
  rewrite AlignUp_pow2 by assumption.
  pose proof (Z.div_mod pos (2 ^ k) ltac:(lia)) as Hdm. rewrite Hmod in Hdm.
  replace ((pos + (2 ^ k - 1)) / 2 ^ k) with (pos / 2 ^ k).
  - replace (2 ^ k * (pos / 2 ^ k)) with pos by lia.
    apply wrap64_small, Hpos.
  - apply Z.div_unique with (r := 2 ^ k - 1); lia.
Qed.

(** X5: [AlignUp pos (2^k)] leaves [pos] unchanged exactly when [pos] is
    already a multiple of [2^k]. *)
Theorem AlignUp_unchanged_iff_aligned (pos k : Z) :
  is_u64 pos -> 0 <= k < 64 ->
  (AlignUp pos (2 ^ k) = pos <-> pos mod 2 ^ k = 0).
Proof.
  intros Hpos Hk. split.
  - intros E. rewrite <- E. apply AlignUp_pow2_mod; assumption.
  - apply AlignUp_of_multiple; assumption.
Qed.

(** X6: the result of [AlignUp pos (2^k)] is a [u64] multiple of [2^k], also
    when the sum wrapped, and aligning it again changes nothing. *)
Theorem AlignUp_idempotent (pos k : Z) :
  is_u64 pos -> 0 <= k < 64 ->
  is_u64 (AlignUp pos (2 ^ k)) /\
  AlignUp pos (2 ^ k) mod 2 ^ k = 0 /\
  AlignUp (AlignUp pos (2 ^ k)) (2 ^ k) = AlignUp pos (2 ^ k).
Proof.
  intros Hpos Hk.
  assert (Hr : is_u64 (AlignUp pos (2 ^ k)))
    by (rewrite AlignUp_pow2 by assumption; apply wrap64_range).
  pose proof (AlignUp_pow2_mod pos k Hpos Hk) as Hm.
  split; [exact Hr|]. split; [exact Hm|].
  apply AlignUp_of_multiple; assumption.
Qed.

(** X7: when [pos + 2^k - 1] still fits a [u64], [AlignUp pos (2^k)] lies in
    [[pos, pos + 2^k)]: the address moves up by less than one alignment
    unit and never down. *)
Theorem AlignUp_bounds (pos k : Z) :
  is_u64 pos -> 0 <= k < 64 -> pos + (2 ^ k - 1) < u64_modulus ->
  pos <= AlignUp pos (2 ^ k) < pos + 2 ^ k.
Proof.
  intros Hpos Hk Hfit. pose proof (pow2_below_modulus k Hk) as [Ha _].
  rewrite AlignUp_pow2 by assumption.
  pose proof (Z.div_mod (pos + (2 ^ k - 1)) (2 ^ k) ltac:(lia)) as Hdm.
  pose proof (Z.mod_pos_bound (pos + (2 ^ k - 1)) (2 ^ k) Ha) as Hr.
  unfold is_u64 in Hpos.
  rewrite wrap64_small by (unfold is_u64; lia). lia.
Qed.

(** X8: within the last [2^k - 1] addresses of the [u64] range the sum
    wraps and [AlignUp pos (2^k)] is [0], below [pos]. *)
Theorem AlignUp_wraps_to_zero (pos k : Z) :
  0 <= k < 64 -> u64_modulus - 2 ^ k < pos < u64_modulus ->
  AlignUp pos (2 ^ k) = 0.
Proof.
  intros Hk Hpos. pose proof (pow2_below_modulus k Hk) as [Ha Hlt].
  assert (Hc : 0 < 2 ^ (64 - k)) by (apply Z.pow_pos_nonneg; lia).
  rewrite AlignUp_pow2 by (unfold is_u64; lia).
  replace ((pos + (2 ^ k - 1)) / 2 ^ k) with (2 ^ (64 - k)).
  - rewrite <- (u64_modulus_split k Hk). unfold wrap64. apply Z.mod_same. lia.
  - pose proof (u64_modulus_split k Hk) as Hs.
    apply Z.div_unique with (r := pos + (2 ^ k - 1) - u64_modulus); lia.
Qed.

(** ** The allocator, beyond the lower bound *)

Section AllocatorMore.

Variables USER_MIN USER_MAX : Z.
Context {os : HostOS}.

(** X9: when the native allocator fails, [memory_alloc] does not halt on
    any platform: it returns the allocator's failure value ([0] from
    [VirtualAlloc], [MAP_FAILED] from [mmap]), maps nothing, and appends one
    error record carrying the native error code. *)
Theorem memory_alloc_failure (p : Platform) (address size : Z) (mode : MemoryMode)
    (w : World) :
  let c := alloc_call p address size mode in
  alloc_return p w c = alloc_failure p ->
  exists w',
    memory_alloc p address size mode w = Returned (alloc_failure p) w' /\
    regions w' = regions w /\
    contents w' = contents w /\
    log w' =
      log w ++
      (if is_win64 p
       then mkLog "VirtualAlloc() failed: 0x{:X}" (host_error w c mod 2 ^ 32)
       else mkLog "mmap() failed: {}" (host_error w c)) :: nil.
Proof.
  intros c Hfail. rewrite memory_alloc_outcome. cbn zeta. fold c.
  rewrite Hfail, Z.eqb_refl. eexists. split; [reflexivity|].
  destruct (is_win64 p); repeat split; reflexivity.
Qed.



(** X12: on a POSIX target, with a zero address hint the [alignment]
    argument reaches nothing: [memory_alloc_aligned] behaves the same for
    any two alignments. *)
Theorem memory_alloc_aligned_posix_ignores_alignment (p : Platform)
    (size : Z) (mode : MemoryMode) (alignment1 alignment2 : Z) (w : World) :
  is_win64 p = false ->
  memory_alloc_aligned USER_MIN USER_MAX p 0 size mode alignment1 w =
  memory_alloc_aligned USER_MIN USER_MAX p 0 size mode alignment2 w.
Proof.
  intros Hp. unfold memory_alloc_aligned. rewrite Hp. reflexivity.
Qed.

End AllocatorMore.

(** ** The protector, beyond the failure policy *)

Lemma page_floor_bounds (page a : Z) :
  0 < page -> page_floor page a <= a < page_floor page a + page.
Proof.
  intros Hp. unfold page_floor.
  pose proof (Z.mod_pos_bound a page Hp). lia.
Qed.

Lemma page_ceil_bounds (page b : Z) :
  0 < page -> b <= page_ceil page b < b + page.
Proof.
  intros Hp. unfold page_ceil, page_floor.
  pose proof (Z.mod_pos_bound (b + (page - 1)) page Hp). lia.
Qed.

Lemma prot_at_reprotect_inside (page a size prot : Z) (rs : list Region) (x : Z) :
  0 < size ->
  page_floor page a <= x < page_ceil page (a + size) ->
  prot_at (reprotect page a size prot rs) x = Some prot.
Proof.
  intros Hsize Hx. unfold reprotect.
  destruct (Z.leb_spec size 0); [lia|].
  cbn [prot_at]. unfold in_region. cbn [r_base r_size r_prot].
  destruct (Z.leb_spec (page_floor page a) x); [|lia].
  destruct (Z.ltb_spec x (page_floor page a +
                          (page_ceil page (a + size) - page_floor page a)));
    [reflexivity|lia].
Qed.

Lemma prot_at_reprotect_outside (page a size prot : Z) (rs : list Region) (x : Z) :
  x < page_floor page a \/ page_ceil page (a + size) <= x ->
  prot_at (reprotect page a size prot rs) x = prot_at rs x.
Proof.
  intros Hx. unfold reprotect.
  destruct (Z.leb_spec size 0); [reflexivity|].
  cbn [prot_at]. unfold in_region. cbn [r_base r_size r_prot].
  destruct (Z.leb_spec (page_floor page a) x); [|reflexivity].
  destruct (Z.ltb_spec x (page_floor page a +
                          (page_ceil page (a + size) - page_floor page a)));
    [lia|reflexivity].
Qed.

(** Every byte of the range itself lies in the pages re-protected. *)
Lemma reprotect_covers_range (page a size x : Z) :
  0 < page -> a <= x < a + size ->
  page_floor page a <= x < page_ceil page (a + size).
Proof.
  intros Hp Hx.
  pose proof (page_floor_bounds page a Hp).
  pose proof (page_ceil_bounds page (a + size) Hp). lia.
Qed.

Lemma in_region_base (a size prot : Z) :
  0 < size -> in_region (mkRegion a size prot) a = true.
Proof.
  intros Hsize. unfold in_region. cbn [r_base r_size].
  destruct (Z.leb_spec a a); [|lia].
  destruct (Z.ltb_spec a (a + size)); [reflexivity|lia].
Qed.

Section ProtectorMore.

Context {os : HostOS}.

(** X13: when the host grants the change over a non-empty range,
    [memory_protect] returns [true] on every platform, having issued the
    one native call over [[address, address + size)] with the native
    encoding of [mode]; nothing is logged and no byte changes.  Protection
    changes by whole pages: every byte of every page holding a byte of the
    range -- the range itself included -- is then under that encoding, and
    every byte outside those pages keeps the protection it had. *)
Theorem memory_protect_success (p : Platform) (address size : Z)
    (mode : MemoryMode) (old_mode : option MemoryMode) (w : World) :
  0 < size ->
  host_refuses w (protect_call p address size mode) = false ->
  let page := Z.pos host_page_size in
  exists out w',
    memory_protect p address size mode old_mode w = Returned (true, out) w' /\
    calls w' = calls w ++ protect_call p address size mode :: nil /\
    log w' = log w /\
    contents w' = contents w /\
    (forall x, page_floor page address <= x < page_ceil page (address + size) ->
               prot_at (regions w') x = Some (convertMemoryMode p mode)) /\
    (forall x, address <= x < address + size ->
               prot_at (regions w') x = Some (convertMemoryMode p mode)) /\
    (forall x, x < page_floor page address \/
               page_ceil page (address + size) <= x ->
               prot_at (regions w') x = prot_at (regions w) x).
Proof.
  intros Hsize Hok page. rewrite memory_protect_outcome. cbn zeta. rewrite Hok.
  eexists _, _. split; [reflexivity|].
  cbn [calls log contents regions with_regions with_call].
  split; [reflexivity|]. split; [reflexivity|]. split; [reflexivity|].
  split; [|split].
  - intros x Hx. apply prot_at_reprotect_inside; assumption.
  - intros x Hx. apply prot_at_reprotect_inside; [assumption|].
    apply reprotect_covers_range; [reflexivity|exact Hx].
  - intros x Hx. apply prot_at_reprotect_outside, Hx.
Qed.

(** X14: on Windows, when the host grants the change over a range whose
    first byte was under native protection [previous], [memory_protect]
    with a supplied [old_mode] returns [true] and leaves the decoding of
    [previous] in the cell. *)
Theorem memory_protect_win64_reports_previous (address size : Z)
    (mode cell : MemoryMode) (previous : Z) (w : World) :
  host_refuses w (protect_call Win64 address size mode) = false ->
  prot_at (regions w) address = Some previous ->
  exists w',
    memory_protect Win64 address size mode (Some cell) w
      = Returned (true, Some (convertMemoryMode_u32 Win64 previous)) w'.
Proof.
  intros Hok Hprev. rewrite memory_protect_outcome. cbn zeta.
  rewrite Hok, Hprev. eexists. reflexivity.
Qed.

(** X15: [memory_protect] leaves the caller's [old_mode] as it was -- a null
    pointer stays null, a cell keeps its content -- on every POSIX target
    and whenever the call reports failure. *)
Theorem memory_protect_old_mode_untouched (p : Platform) (address size : Z)
    (mode : MemoryMode) (old_mode out : option MemoryMode) (ok : bool)
    (w w' : World) :
  is_win64 p = false \/ ok = false \/ old_mode = None ->
  memory_protect p address size mode old_mode w = Returned (ok, out) w' ->
  out = old_mode.
Proof.
  intros Hcase. rewrite memory_protect_outcome. cbn zeta.
  destruct (host_refuses w _), (is_win64 p), old_mode;
    intros H; try discriminate H; injection H as Hok Hout _;
    destruct Hcase as [Hc|[Hc|Hc]]; congruence.
Qed.

(** X16: on Windows, two granted protection changes over the same
    non-empty range compose: the second reports, through [old_mode], the
    class representative of the mode the first one set. *)
Theorem memory_protect_twice_win64 (address size : Z) (mode1 mode2 cell : MemoryMode)
    (old1 out1 out2 : option MemoryMode) (w w1 w2 : World) :
  0 < size ->
  memory_protect Win64 address size mode1 old1 w = Returned (true, out1) w1 ->
  memory_protect Win64 address size mode2 (Some cell) w1 = Returned (true, out2) w2 ->
  out2 = Some (mode_class mode1).
Proof.
  intros Hsize H1 H2.
  rewrite memory_protect_outcome in H1. cbn zeta in H1.
  destruct (host_refuses w _); [discriminate H1|].
  assert (Hw1 : with_regions
                  (reprotect (Z.pos host_page_size) address size
                     (convertMemoryMode Win64 mode1))
                  (with_call (protect_call Win64 address size mode1) w) = w1)
    by congruence.
  rewrite <- Hw1 in H2.
  rewrite memory_protect_outcome in H2. cbn zeta in H2.
  destruct (host_refuses _ _); [discriminate H2|].
  cbn [is_win64 regions with_regions with_call] in H2.
  rewrite prot_at_reprotect_inside in H2
    by first [exact Hsize | apply reprotect_covers_range; [reflexivity|lia]].
  cbn [default from_option id] in H2.
  rewrite decode_encode_class in H2. congruence.
Qed.

(** X17: on Windows, a region obtained from [memory_alloc] with a mode and
    then re-protected over its [size > 0] bytes reports, through
    [old_mode], the class representative of the mode it was allocated
    with. *)
Theorem memory_alloc_then_protect_win64 (address size : Z)
    (mode1 mode2 cell : MemoryMode) (ptr : Z) (out : option MemoryMode)
    (w w1 w2 : World) :
  0 < size -> ptr <> 0 ->
  memory_alloc Win64 address size mode1 w = Returned ptr w1 ->
  memory_protect Win64 ptr size mode2 (Some cell) w1 = Returned (true, out) w2 ->
  out = Some (mode_class mode1).
Proof.
  intros Hsize Hptr H1 H2.
  rewrite memory_alloc_outcome in H1. cbn zeta in H1.
  change (alloc_failure Win64) with 0 in H1.
  destruct (Z.eqb_spec (alloc_return Win64 w (alloc_call Win64 address size mode1)) 0)
    as [E|_]; injection H1 as Hp Hw1; [congruence|].
  subst w1. rewrite Hp in H2.
  rewrite memory_protect_outcome in H2. cbn zeta in H2.
  destruct (host_refuses _ _); [discriminate H2|].
  injection H2 as Hout _. subst out.
  cbn [is_win64 regions with_regions with_call prot_at].
  rewrite in_region_base by exact Hsize. cbn [default from_option id].
  rewrite decode_encode_class. reflexivity.
Qed.

(** X18: [memory_flush] never halts and touches neither memory nor
    protections.  On a POSIX target it does nothing and returns [true]; on
    Windows it issues [FlushInstructionCache] over the range and returns
    [false], with one error record, exactly when that call fails. *)
Theorem memory_flush_effect (p : Platform) (address size : Z) (w : World) :
  let c := FlushInstructionCache address size in
  exists ok w',
    memory_flush p address size w = Returned ok w' /\
    regions w' = regions w /\
    contents w' = contents w /\
    ok = negb (is_win64 p && host_refuses w c) /\
    calls w' = (if is_win64 p then calls w ++ c :: nil else calls w) /\
    log w' =
      (if ok then log w
       else log w ++ mkLog "FlushInstructionCache() failed: 0x{:X}"
                           (host_error w c mod 2 ^ 32) :: nil).
Proof.
  cbn zeta. unfold memory_flush, sys_FlushInstructionCache, bind.
  destruct (is_win64 p); [|eexists _, _; repeat split; reflexivity].
  destruct (host_refuses w _); eexists _, _; repeat split; reflexivity.
Qed.

End ProtectorMore.

(** ** The word patcher, beyond one call *)

Lemma bytes_at_unmapped (n : nat) (w : World) (a : Z) (i : nat) :
  (i < n)%nat -> prot_at (regions w) (a + Z.of_nat i) = None ->
  bytes_at w a n = None.
Proof.
  intros Hi Hnone. destruct (bytes_at w a n) as [bs|] eqn:Hread; [|reflexivity].
  destruct (bytes_at_elim _ _ _ _ Hread) as [Hlen Hget].
  assert (Hlt : (i < length bs)%nat) by lia.
  destruct (lookup_lt_is_Some_2 bs i Hlt) as [b Hb].
  pose proof (Hget i b Hb) as Hbyte. unfold byte_at in Hbyte.
  rewrite Hnone in Hbyte. discriminate Hbyte.
Qed.

(** The eight bytes at [vaddr] after a patch are the bytes stored. *)
Lemma bytes_at_patched (p : Platform) (vaddr : Z) (bs0 bs : list byte)
    (w : World) :
  bytes_at w vaddr 8 = Some bs0 -> length bs = 8%nat ->
  bytes_at (after_store p (with_contents (write_bytes vaddr bs) (before_store p w)))
             vaddr 8 = Some bs.
Proof.
  intros Hread Hlen.
  rewrite (bytes_at_same_memory (with_contents (write_bytes vaddr bs) w)).
  - apply (bytes_at_after_write w vaddr 8 bs0 bs Hread Hlen).
  - rewrite regions_after_store. cbn. apply regions_before_store.
  - rewrite contents_after_store. cbn. rewrite contents_before_store. reflexivity.
Qed.

(** Storing over a range and then storing back what it held restores every
    byte. *)
Lemma byte_at_write_over (w : World) (a : Z) (n : nat) (bs bs' : list byte) :
  bytes_at w a n = Some bs -> length bs' = n ->
  forall x,
    byte_at (with_contents (fun m => write_bytes a bs (write_bytes a bs' m)) w) x
    = byte_at w x.
Proof.
  intros Hread Hlen' x. destruct (bytes_at_elim _ _ _ _ Hread) as [Hlen Hget].
  rewrite byte_at_with_contents.
  destruct (Z_lt_dec x a) as [Hlo|Hlo].
  { unfold byte_at. rewrite !write_bytes_lookup_outside by lia. reflexivity. }
  destruct (Z_le_dec (a + Z.of_nat n) x) as [Hhi|Hhi].
  { unfold byte_at. rewrite !write_bytes_lookup_outside by lia. reflexivity. }
  assert (Hlt : (Z.to_nat (x - a) < length bs)%nat) by lia.
  destruct (lookup_lt_is_Some_2 bs _ Hlt) as [b Hb].
  pose proof (Hget _ _ Hb) as Hold.
  pose proof (write_bytes_lookup_inside bs a
                (write_bytes a bs' (contents w)) _ b Hb) as Hnew.
  replace (a + Z.of_nat (Z.to_nat (x - a))) with x in * by lia.
  unfold byte_at in *.
  destruct (prot_at (regions w) x); [|reflexivity].
  rewrite Hnew. rewrite <- Hold. reflexivity.
Qed.

Section PatcherMore.

Context {os : HostOS}.

(** What a returning [memory_patch] returned and the state it left. *)
Lemma memory_patch_returned (p : Platform) (vaddr value : Z) (changed : bool)
    (w w1 : World) :
  memory_patch p vaddr value w = Returned changed w1 ->
  exists bs,
    bytes_at w vaddr 8 = Some bs /\
    range_allows (can_read p) (regions w) vaddr 8 = true /\
    store_permitted p w vaddr = true /\
    changed = negb (le_combine bs =? value) /\
    w1 = after_store p
           (with_contents (write_bytes vaddr (le_split 8 value)) (before_store p w)).
Proof.
  intros H.
  destruct (memory_patch_cases p vaddr value w)
    as [(bs & Hbs & Hr & Hw & E)|E]; rewrite E in H; [|discriminate H].
  exists bs. repeat split; try assumption; congruence.
Qed.

(** A patch leaves the region table as it was. *)
Lemma regions_patched (p : Platform) (vaddr : Z) (bs : list byte) (w : World) :
  regions (after_store p (with_contents (write_bytes vaddr bs) (before_store p w)))
  = regions w.
Proof. rewrite regions_after_store. cbn. apply regions_before_store. Qed.

(** X19: when any of the eight bytes at [vaddr] is not mapped -- the word
    may straddle the end of a region -- [memory_patch] halts with an access
    violation at its first dereference: no byte is written and no
    protection changes. *)
Theorem memory_patch_unmapped_faults (p : Platform) (vaddr value : Z) (w : World)
    (i : Z) :
  0 <= i < 8 -> prot_at (regions w) (vaddr + i) = None ->
  exists w',
    memory_patch p vaddr value w = Halted AccessViolation w' /\
    (forall a, byte_at w' a = byte_at w a) /\
    regions w' = regions w.
Proof.
  intros Hi Hnone.
  assert (Hread : bytes_at w vaddr 8 = None).
  { apply (bytes_at_unmapped 8 w vaddr (Z.to_nat i)); [lia|].
    rewrite Z2Nat.id by lia. exact Hnone. }
  rewrite (memory_patch_unmapped p vaddr value w Hread).
  eexists. split; [reflexivity|]. split.
  - intros a. apply byte_at_same_memory;
      [apply regions_before_store|apply contents_before_store].
  - apply regions_before_store.
Qed.

(** X20: patching is idempotent: after [memory_patch vaddr value] has
    returned, the same call again returns [false] and changes no byte. *)
Theorem memory_patch_twice (p : Platform) (vaddr value : Z) (changed : bool)
    (w w1 : World) :
  is_u64 value ->
  memory_patch p vaddr value w = Returned changed w1 ->
  exists w2,
    memory_patch p vaddr value w1 = Returned false w2 /\
    forall a, byte_at w2 a = byte_at w1 a.
Proof.
  intros Hval H1.
  destruct (memory_patch_returned _ _ _ _ _ _ H1)
    as (bs & Hread & Hr & Hw & _ & Hw1).
  pose proof (bytes_at_patched p vaddr bs (le_split 8 value) w Hread
                (length_le_split 8 value)) as Hread1.
  pose proof (regions_patched p vaddr (le_split 8 value) w) as Hreg.
  rewrite <- Hw1 in Hread1, Hreg.
  assert (Hr1 : range_allows (can_read p) (regions w1) vaddr 8 = true)
    by (rewrite Hreg; exact Hr).
  assert (Hs1 : store_permitted p w1 vaddr = true)
    by (unfold store_permitted in *; rewrite Hreg; exact Hw).
  rewrite (memory_patch_mapped p vaddr value w1 _ Hr1 Hs1 Hread1).
  rewrite le_combine_split.
  replace (value mod 2 ^ (Z.of_nat 8 * 8)) with value
    by (symmetry; apply Z.mod_small; exact Hval).
  rewrite Z.eqb_refl. eexists. split; [reflexivity|].
  intros a. rewrite byte_at_patched.
  apply (byte_at_write_back w1 vaddr 8 _ Hread1).
Qed.

(** X21: a patch is undone by patching the old value back: when the word
    held [old] and [memory_patch vaddr value] returned [changed], then
    [memory_patch vaddr old] returns the same [changed] and every byte of
    memory reads as it did before the first call. *)
Theorem memory_patch_restore (p : Platform) (vaddr old value : Z) (changed : bool)
    (w w1 : World) :
  word_at w vaddr = Some old ->
  is_u64 value ->
  memory_patch p vaddr value w = Returned changed w1 ->
  exists w2,
    memory_patch p vaddr old w1 = Returned changed w2 /\
    forall a, byte_at w2 a = byte_at w a.
Proof.
  intros Hload Hval H1. unfold word_at in Hload.
  destruct (bytes_at w vaddr 8) as [bs|] eqn:Hread; [|discriminate Hload].
  injection Hload as Hold.
  destruct (bytes_at_elim _ _ _ _ Hread) as [Hlen _].
  destruct (memory_patch_returned _ _ _ _ _ _ H1)
    as (bs' & Hread' & Hr & Hw & Hch & Hw1).
  rewrite Hread in Hread'. injection Hread' as <-.
  pose proof (bytes_at_patched p vaddr bs (le_split 8 value) w Hread
                (length_le_split 8 value)) as Hread1.
  pose proof (regions_patched p vaddr (le_split 8 value) w) as Hreg.
  rewrite <- Hw1 in Hread1, Hreg.
  assert (Hr1 : range_allows (can_read p) (regions w1) vaddr 8 = true)
    by (rewrite Hreg; exact Hr).
  assert (Hs1 : store_permitted p w1 vaddr = true)
    by (unfold store_permitted in *; rewrite Hreg; exact Hw).
  rewrite (memory_patch_mapped p vaddr old w1 _ Hr1 Hs1 Hread1).
  rewrite le_combine_split.
  replace (value mod 2 ^ (Z.of_nat 8 * 8)) with value
    by (symmetry; apply Z.mod_small; exact Hval).
  eexists. split.
  - f_equal. rewrite Hch, Hold. f_equal. apply Z.eqb_sym.
  - intros a. rewrite byte_at_patched.
    assert (Hbs : le_split 8 old = bs).
    { rewrite <- Hold, <- Hlen. apply split_le_combine. }
    rewrite Hbs, Hw1.
    rewrite <- (byte_at_write_over w vaddr 8 bs (le_split 8 value) Hread
                  (length_le_split 8 value) a).
    apply byte_at_same_memory.
    + cbn [regions with_contents]. rewrite regions_after_store.
      cbn [regions with_contents]. apply regions_before_store.
    + cbn [contents with_contents]. rewrite contents_after_store.
      cbn [contents with_contents]. rewrite contents_before_store. reflexivity.
Qed.

(** X22: a patch that returns has bracketed its store, on Apple aarch64,
    with exactly two native calls -- JIT write protection off, then on --
    and leaves the protection on whatever it was before; on every other
    platform it issues no native call at all.  It logs nothing and leaves
    the error code alone. *)
Theorem memory_patch_jit_bracket (p : Platform) (vaddr value : Z) (changed : bool)
    (w w' : World) :
  memory_patch p vaddr value w = Returned changed w' ->
  calls w' =
    calls w ++
    (if is_apple_aarch64 p
     then pthread_jit_write_protect_np false ::
          pthread_jit_write_protect_np true :: nil
     else nil) /\
  jit_write_protect w' =
    (if is_apple_aarch64 p then true else jit_write_protect w) /\
  log w' = log w /\
  last_error w' = last_error w.
Proof.
  intros H.
  destruct (memory_patch_returned _ _ _ _ _ _ H) as (bs & _ & _ & _ & _ & ->).
  unfold after_store, before_store.
  destruct (is_apple_aarch64 p); cbn.
  - rewrite <- app_assoc. repeat split; reflexivity.
  - rewrite app_nil_r. repeat split; reflexivity.
Qed.

End PatcherMore.

(** ** The further properties at concrete inputs *)

Lemma AlignUp_unchanged_iff_aligned_witness :
  AlignUp 16 (2 ^ 3) = 16 <-> 16 mod 2 ^ 3 = 0.
Proof.
  apply (AlignUp_unchanged_iff_aligned 16 3);
    [unfold is_u64, u64_modulus; lia | lia].
Defined.

Lemma AlignUp_idempotent_witness :
  is_u64 (AlignUp 5 (2 ^ 3)) /\
  AlignUp 5 (2 ^ 3) mod 2 ^ 3 = 0 /\
  AlignUp (AlignUp 5 (2 ^ 3)) (2 ^ 3) = AlignUp 5 (2 ^ 3).
Proof.
  apply (AlignUp_idempotent 5 3); [unfold is_u64, u64_modulus; lia | lia].
Defined.

Lemma AlignUp_bounds_witness :
  5 <= AlignUp 5 (2 ^ 3) < 5 + 2 ^ 3.
Proof.
  apply (AlignUp_bounds 5 3);
    [unfold is_u64, u64_modulus; lia | lia | unfold u64_modulus; lia].
Defined.

Lemma AlignUp_wraps_to_zero_witness :
  AlignUp (u64_modulus - 3) (2 ^ 3) = 0.
Proof.
  apply (AlignUp_wraps_to_zero (u64_modulus - 3) 3);
    [lia | unfold u64_modulus; lia].
Defined.

(** A refused [mmap]. *)
Lemma memory_alloc_failure_witness :
  exists w',
    memory_alloc (os := refusing_host) Posix 0 4096 ReadWrite empty_world
      = Returned MAP_FAILED w' /\
    regions w' = nil /\
    contents w' = ∅ /\
    log w' = mkLog "mmap() failed: {}" 8 :: nil.
Proof.
  exact (memory_alloc_failure (os := refusing_host) Posix 0 4096 ReadWrite
           empty_world eq_refl).
Defined.



Lemma memory_alloc_aligned_posix_ignores_alignment_witness :
  memory_alloc_aligned (os := granting_host) sample_USER_MIN sample_USER_MAX
    Posix 0 4096 Read 4096 empty_world =
  memory_alloc_aligned (os := granting_host) sample_USER_MIN sample_USER_MAX
    Posix 0 4096 Read 65536 empty_world.
Proof.
  exact (memory_alloc_aligned_posix_ignores_alignment (os := granting_host)
           sample_USER_MIN sample_USER_MAX Posix 4096 Read 4096 65536
           empty_world eq_refl).
Defined.

(** A granted [mprotect] over eight bytes of a read-write page: the whole
    page becomes read-only. *)
Lemma memory_protect_success_witness :
  let w := one_page 0x10000 (PAGE_READWRITE Posix) in
  exists out w',
    memory_protect (os := granting_host) Posix 0x10000 8 Read None w
      = Returned (true, out) w' /\
    calls w' = calls w ++ protect_call Posix 0x10000 8 Read :: nil /\
    log w' = log w /\
    contents w' = contents w /\
    (forall x, page_floor 4096 0x10000 <= x < page_ceil 4096 (0x10000 + 8) ->
               prot_at (regions w') x = Some (convertMemoryMode Posix Read)) /\
    (forall x, 0x10000 <= x < 0x10000 + 8 ->
               prot_at (regions w') x = Some (convertMemoryMode Posix Read)) /\
    (forall x, x < page_floor 4096 0x10000 \/
               page_ceil 4096 (0x10000 + 8) <= x ->
               prot_at (regions w') x = prot_at (regions w) x).
Proof.
  exact (memory_protect_success (os := granting_host) Posix 0x10000 8 Read None
           (one_page 0x10000 (PAGE_READWRITE Posix)) eq_refl eq_refl).
Defined.

(** A granted [VirtualProtect] over an executable page. *)
Lemma memory_protect_win64_reports_previous_witness :
  exists w',
    memory_protect (os := granting_host) Win64 0x10000 4096 Read (Some NoAccess)
      (one_page 0x10000 0x40)
      = Returned (true, Some (convertMemoryMode_u32 Win64 0x40)) w'.
Proof.
  exact (memory_protect_win64_reports_previous (os := granting_host) 0x10000 4096
           Read NoAccess 0x40 (one_page 0x10000 0x40) eq_refl eq_refl).
Defined.

(** A refused [VirtualProtect] leaves the cell at [Execute]. *)
Lemma memory_protect_old_mode_untouched_witness :
  Some Execute = Some Execute.
Proof.
  eapply (memory_protect_old_mode_untouched (os := refusing_host) Win64 0x10000
            4096 Read (Some Execute) (Some Execute) false
            (one_page 0x10000 0x04));
    [right; left; reflexivity | vm_compute; reflexivity].
Defined.

(** [Write] is set, then [ReadWrite] is reported. *)
Lemma memory_protect_twice_win64_witness :
  Some ReadWrite = Some (mode_class Write).
Proof.
  eapply (memory_protect_twice_win64 (os := granting_host) 0x10000 4096 Write Read
            NoAccess None None (Some ReadWrite) (one_page 0x10000 0x40));
    [lia | vm_compute; reflexivity | vm_compute; reflexivity].
Defined.

(** Allocated [ExecuteWrite], reported [ExecuteReadWrite]. *)
Lemma memory_alloc_then_protect_win64_witness :
  Some ExecuteReadWrite = Some (mode_class ExecuteWrite).
Proof.
  eapply (memory_alloc_then_protect_win64 (os := granting_host) 0 4096
            ExecuteWrite Read NoAccess 0x10000000 (Some ExecuteReadWrite)
            empty_world);
    [lia | lia | vm_compute; reflexivity | vm_compute; reflexivity].
Defined.

(** A word whose last four bytes lie past the end of the page. *)
Lemma memory_patch_unmapped_faults_witness :
  let w := one_page 0x10000 (PAGE_READWRITE Posix) in
  exists w',
    memory_patch (os := granting_host) Posix 0x10ffc 1 w
      = Halted AccessViolation w' /\
    (forall a, byte_at w' a = byte_at w a) /\
    regions w' = regions w.
Proof.
  apply (memory_patch_unmapped_faults (os := granting_host) Posix 0x10ffc 1
           (one_page 0x10000 (PAGE_READWRITE Posix)) 4); [lia | reflexivity].
Defined.

Lemma memory_patch_twice_witness :
  let w := one_page 0x10000 (PAGE_READWRITE Posix) in
  let w1 := outcome_world
              (memory_patch (os := granting_host) Posix 0x10008 0x1122334455667788 w) in
  exists w2,
    memory_patch (os := granting_host) Posix 0x10008 0x1122334455667788 w1
      = Returned false w2 /\
    forall a, byte_at w2 a = byte_at w1 a.
Proof.
  cbn zeta.
  apply (memory_patch_twice (os := granting_host) Posix 0x10008 0x1122334455667788
           true (one_page 0x10000 (PAGE_READWRITE Posix)));
    [unfold is_u64, u64_modulus; lia | vm_compute; reflexivity].
Defined.

Lemma memory_patch_restore_witness :
  let w := one_page 0x10000 (PAGE_READWRITE Posix) in
  let w1 := outcome_world
              (memory_patch (os := granting_host) Posix 0x10008 0x1122334455667788 w) in
  exists w2,
    memory_patch (os := granting_host) Posix 0x10008 0 w1 = Returned true w2 /\
    forall a, byte_at w2 a = byte_at w a.
Proof.
  cbn zeta.
  apply (memory_patch_restore (os := granting_host) Posix 0x10008 0
           0x1122334455667788 true (one_page 0x10000 (PAGE_READWRITE Posix)));
    [reflexivity | unfold is_u64, u64_modulus; lia | vm_compute; reflexivity].
Defined.

Lemma memory_patch_jit_bracket_witness :
  let w := one_page 0x10000 (PAGE_EXECUTE_READWRITE PosixAppleAarch64) in
  let w' := outcome_world
              (memory_patch (os := granting_host) PosixAppleAarch64 0x10008 7 w) in
  calls w' = pthread_jit_write_protect_np false ::
             pthread_jit_write_protect_np true :: nil /\
  jit_write_protect w' = true /\
  log w' = nil /\
  last_error w' = 0.
Proof.
  cbn zeta.
  apply (memory_patch_jit_bracket (os := granting_host) PosixAppleAarch64 0x10008 7
           true (one_page 0x10000 (PAGE_EXECUTE_READWRITE PosixAppleAarch64))).
  vm_compute. reflexivity.
Defined.

(** ** The lower search bound of [memory_alloc_aligned] *)

Section LowerBound.

Variables USER_MIN USER_MAX : Z.
Context {os : HostOS}.

(** C7 (what [AlignUp] makes of the hint): the one native allocation call
    [memory_alloc_aligned] issues carries [USER_MIN] as its lower search
    bound when [address] is zero and [AlignUp address alignment] otherwise.
    That value is [address] itself when [alignment] is zero and, when
    [alignment] is a power of two, the least multiple of [alignment] that
    is at least [address], reduced modulo [2^64]: a multiple of
    [alignment], and within [[address, address + alignment)] unless
    [address + alignment - 1] overflows a [u64]. *)
Theorem memory_alloc_aligned_lower_bound (p : Platform) (address size : Z)
    (mode : MemoryMode) (alignment : Z) (w : World) :
  is_u64 address ->
  exists c bound,
    calls (outcome_world
             (memory_alloc_aligned USER_MIN USER_MAX p address size mode alignment w))
      = calls w ++ c :: nil /\
    lower_bound c = Some bound /\
    bound = (if address =? 0 then USER_MIN else AlignUp address alignment) /\
    (address = 0 -> bound = USER_MIN) /\
    (address <> 0 -> alignment = 0 -> bound = address) /\
    (address <> 0 ->
     forall k, 0 <= k < 64 -> alignment = 2 ^ k ->
       (exists m, least_multiple_ge alignment address m /\ bound = wrap64 m) /\
       bound mod alignment = 0 /\
       (address + (alignment - 1) < u64_modulus ->
        address <= bound < address + alignment)).
Proof.
  intros Haddr.
  destruct (memory_alloc_aligned_issues_call USER_MIN USER_MAX p address size
              mode alignment w) as (c & Hcalls & Hbound).
  exists c, (if address =? 0 then USER_MIN else AlignUp address alignment).
  split; [exact Hcalls|]. split; [exact Hbound|]. split; [reflexivity|].
  destruct (Z.eqb_spec address 0) as [E|N].
  - split; [reflexivity|]. split; intros; contradiction.
  - split; [intros; contradiction|]. split.
    + intros _ ->. reflexivity.
    + intros _ k Hk ->. pose proof (pow2_below_modulus k Hk) as [Ha _].
      split; [|split].
      * exists (2 ^ k * ((address + (2 ^ k - 1)) / 2 ^ k)). split.
        -- apply round_up_least_multiple, Ha.
        -- apply AlignUp_pow2; assumption.
      * apply AlignUp_pow2_mod; assumption.
      * intros Hfit. rewrite AlignUp_pow2 by assumption.
        pose proof (Z.div_mod (address + (2 ^ k - 1)) (2 ^ k) ltac:(lia)) as Hdm.
        pose proof (Z.mod_pos_bound (address + (2 ^ k - 1)) (2 ^ k) Ha) as Hr.
        unfold is_u64 in Haddr.
        rewrite wrap64_small by (unfold is_u64; lia). lia.
Qed.

End LowerBound.

(** C7 does not hold of every call: with the alignment [3], not a power of
    two, the bound for the hint [5] is [5], no multiple of [3] (the least
    one at or above [5] is [6]); and with the hint [2^64 - 1] and the
    alignment [4096] the sum wraps and the bound is [0], below the hint. *)
Lemma memory_alloc_aligned_lower_bound_not_rounded :
  (exists c,
      calls (outcome_world
               (memory_alloc_aligned (os := granting_host)
                  sample_USER_MIN sample_USER_MAX Posix 5 4096 ReadWrite 3
                  empty_world)) = c :: nil /\
      lower_bound c = Some 5 /\
      5 mod 3 = 2 /\
      least_multiple_ge 3 5 6) /\
  (exists c,
      calls (outcome_world
               (memory_alloc_aligned (os := granting_host)
                  sample_USER_MIN sample_USER_MAX Posix u64_max 4096 ReadWrite
                  4096 empty_world)) = c :: nil /\
      lower_bound c = Some 0 /\
      0 < u64_max).
Proof.
  split.
  - eexists. split; [vm_compute; reflexivity|]. split; [reflexivity|].
    split; [reflexivity|]. unfold least_multiple_ge.
    split; [exists 2; reflexivity|]. split; [lia|].
    intros m' [q' ->] Hle. lia.
  - eexists. split; [vm_compute; reflexivity|]. split; reflexivity.
Qed.

(** The hint [5] under the alignment [8] on Windows: the bound is [8]. *)
Lemma memory_alloc_aligned_lower_bound_witness :
  exists c bound,
    calls (outcome_world
             (memory_alloc_aligned (os := granting_host)
                sample_USER_MIN sample_USER_MAX Win64 5 4096 ReadWrite 8
                empty_world))
      = calls empty_world ++ c :: nil /\
    lower_bound c = Some bound /\
    bound = (if 5 =? 0 then sample_USER_MIN else AlignUp 5 8) /\
    (5 = 0 -> bound = sample_USER_MIN) /\
    (5 <> 0 -> 8 = 0 -> bound = 5) /\
    (5 <> 0 ->
     forall k, 0 <= k < 64 -> 8 = 2 ^ k ->
       (exists m, least_multiple_ge 8 5 m /\ bound = wrap64 m) /\
       bound mod 8 = 0 /\
       (5 + (8 - 1) < u64_modulus -> 5 <= bound < 5 + 8)).
Proof.
  apply (memory_alloc_aligned_lower_bound (os := granting_host)
           sample_USER_MIN sample_USER_MAX Win64 5 4096 ReadWrite 8 empty_world).
  unfold is_u64, u64_modulus. lia.
Defined.
